(** * sentencepiece: the LevelDB-backed sentence store of [TrainerInterface]

    A shallow embedding of [src/trainer_interface.h]: the [Sorted] ranking
    template and the persistence methods of [TrainerInterface]
    ([addSentenceToDB], [removeSentenceFromDB], [loadSentencesFromDB],
    [getSentenceFromDB], [updateSentenceInDB], [getDBSize]) together with
    the parts of the C++ standard library and of LevelDB they call.

    - [std::string] is a byte string: Stdlib's [string] (a list of 8-bit
      [ascii]);
    - [size_t] is an [N] below [2^64], [int64_t] a [Z] in the signed 64-bit
      range; the wrap-around of [++current_index_] is written out;
    - a C++ function that may throw returns an [Outcome]: [Return v] or
      [Throw e];
    - the LevelDB handle [db_] is an ordered table (keys in bytewise order)
      plus the schedule of the failures the storage medium is going to
      report; every LevelDB call consumes one entry of the schedule. *)

From Stdlib Require Import ZArith NArith Ascii String Lia Bool.
From Stdlib Require Import Decimal DecimalString DecimalPos DecimalN DecimalZ.
From Stdlib Require Import Sorting.Sorted.
From stdpp Require Import base list sorting gmap.

Open Scope string_scope.

(** ** C++ exceptions and outcomes *)

(** The three exception classes the translated code can throw; each carries
    its [what()] message. *)
Inductive exception : Type :=
  | runtime_error (what : string)
  | out_of_range (what : string)
  | invalid_argument (what : string).

(** A call either returns normally or leaves by a thrown exception. *)
Inductive Outcome (A : Type) : Type :=
  | Return (a : A)
  | Throw (e : exception).
Arguments Return {A} a.
Arguments Throw {A} e.

Definition returns {A} (o : Outcome A) : bool :=
  match o with Return _ => true | Throw _ => false end.

Definition throws {A} (o : Outcome A) : bool := negb (returns o).

(** ** Machine integers *)

Definition SIZE_MAX : N := 18446744073709551615.
Definition INT64_MIN : Z := -9223372036854775808.
Definition INT64_MAX : Z := 9223372036854775807.

Definition is_int64 (z : Z) : Prop := (INT64_MIN <= z <= INT64_MAX)%Z.

(** [++i] on a [size_t]. *)
Definition size_t_incr (i : N) : N := ((i + 1) mod (SIZE_MAX + 1))%N.

(** ** The parts of [<string>] the store relies on *)

Definition NUL : ascii := Ascii.zero.

(** [s + '\0' + t] *)
Definition join_NUL (s t : string) : string := s ++ String NUL t.

(** [std::to_string(size_t)]: the decimal digits, most significant first,
    no padding. *)
Definition to_string_size_t (n : N) : string :=
  NilZero.string_of_uint (N.to_uint n).

(** [std::to_string(int64_t)]: a minus sign for negative values, then the
    decimal digits. *)
Definition to_string_int64 (z : Z) : string :=
  NilZero.string_of_int (Z.to_int z).

(** [value.find('\0')]: the position of the first NUL byte, [None] for
    [std::string::npos]. *)
Fixpoint find_NUL (s : string) : option nat :=
  match s with
  | EmptyString => None
  | String c s' =>
      if Ascii.eqb c NUL then Some 0 else option_map S (find_NUL s')
  end.

(** [s.substr(0, n)] *)
Fixpoint substr_to (n : nat) (s : string) : string :=
  match n, s with
  | S n', String c s' => String c (substr_to n' s')
  | _, _ => EmptyString
  end.

(** [s.substr(n)] for [n <= s.size()] *)
Fixpoint substr_from (n : nat) (s : string) : string :=
  match n, s with
  | S n', String _ s' => substr_from n' s'
  | _, _ => s
  end.

(** [isspace] in the "C" locale: space, and the controls 9 to 13. *)
Definition isspace (c : ascii) : bool :=
  let n := N_of_ascii c in
  ((n =? 32) || ((9 <=? n) && (n <=? 13)))%N.

Definition digit_of (c : ascii) : option N :=
  let n := N_of_ascii c in
  if ((48 <=? n) && (n <=? 57))%N then Some (n - 48)%N else None.

Fixpoint skip_space (s : string) : string :=
  match s with
  | String c s' => if isspace c then skip_space s' else s
  | EmptyString => s
  end.

(** The longest run of decimal digits at the head of [s], accumulated into
    [acc]; [seen] tells whether a digit has been consumed. [None]: no digit
    at all. *)
Fixpoint digits_acc (s : string) (acc : N) (seen : bool) : option N :=
  match s with
  | String c s' =>
      match digit_of c with
      | Some d => digits_acc s' (10 * acc + d)%N true
      | None => if seen then Some acc else None
      end
  | EmptyString => if seen then Some acc else None
  end.

(** [std::stoll(s)] (base 10, no position output): skips leading white
    space, reads an optional sign and the digits that follow; throws
    [std::invalid_argument] when there is no digit and [std::out_of_range]
    when the number does not fit [long long]. Bytes after the digits are
    ignored. *)
Definition stoll (s : string) : Outcome Z :=
  let s1 := skip_space s in
  let '(neg, s2) :=
    match s1 with
    | String "-" r => (true, r)
    | String "+" r => (false, r)
    | _ => (false, s1)
    end in
  match digits_acc s2 0%N false with
  | None => Throw (invalid_argument "stoll")
  | Some m =>
      let v := if neg then (- Z.of_N m)%Z else Z.of_N m in
      if ((INT64_MIN <=? v) && (v <=? INT64_MAX))%Z
      then Return v
      else Throw (out_of_range "stoll")
  end.

(** ** [Sorted]: ranking by value, then by key *)

(** [std::sort(first, last, comp)]. The C++ standard fixes the result only
    for a comparison that is a strict weak ordering; for any other one the
    result is whatever the library's algorithm leaves. This is the
    algorithm of libstdc++ for ranges of at most 16 elements,
    [__insertion_sort]: every element in turn, from left to right, goes to
    the front of the sorted prefix when [comp] puts it before the first
    element, and otherwise travels from the right end of the prefix to the
    left, past the elements [comp] puts it before
    ([__unguarded_linear_insert]). On longer ranges libstdc++ partitions
    first; for a strict total order the result is the same, the ranked
    permutation being unique. *)

(** [__unguarded_linear_insert], on the sorted prefix read from its right
    end. *)
Fixpoint unguarded_linear_insert {A} (comp : A -> A -> bool) (val : A)
    (reversed : list A) : list A :=
  match reversed with
  | [] => [val]
  | next :: reversed' =>
      if comp val next
      then next :: unguarded_linear_insert comp val reversed'
      else val :: next :: reversed'
  end.

(** One turn of the loop of [__insertion_sort]. *)
Definition insertion_step {A} (comp : A -> A -> bool) (sorted : list A) (val : A)
  : list A :=
  match sorted with
  | [] => [val]
  | first :: _ =>
      if comp val first
      then val :: sorted
      else rev (unguarded_linear_insert comp val (rev sorted))
  end.

Definition std_sort {A} (comp : A -> A -> bool) (v : list A) : list A :=
  match v with
  | [] => []
  | x :: rest => fold_left (insertion_step comp) rest [x]
  end.

Section Ranking.
Context {K V : Type}.
(** [operator<] on keys, [operator>] and [operator==] on values. *)
Variable ltK : K -> K -> bool.
Variable gtV : V -> V -> bool.
Variable eqV : V -> V -> bool.

(** The comparison lambda handed to [std::sort]. *)
Definition comp (p1 p2 : K * V) : bool :=
  gtV (snd p1) (snd p2) || (eqV (snd p1) (snd p2) && ltK (fst p1) (fst p2)).

Definition Sorted (m : list (K * V)) : list (K * V) :=
  let v := m in
  std_sort comp v.
End Ranking.

(** ** LevelDB *)

(** LevelDB is a library the trainer links against. The module states what
    its interface promises to the calls the trainer makes: a map from byte
    strings to byte strings kept in the order of the bytewise comparator,
    [Put] overwriting, [Get] of an absent key answering [NotFound], [Delete]
    of an absent key being no error, and an iterator that walks the records
    in key order. Any call may instead come back with the non-ok status of
    a failing medium, and then leaves the records as they were. *)
Module leveldb.

(** The non-ok codes of [leveldb::Status]. *)
Inductive Code : Type :=
  kNotFound | kCorruption | kNotSupported | kInvalidArgument | kIOError.

Inductive Status : Type :=
  | OK
  | Error (c : Code) (msg : string).

Definition ok (s : Status) : bool :=
  match s with OK => true | Error _ _ => false end.

Definition ToString (s : Status) : string :=
  match s with
  | OK => "OK"
  | Error kNotFound msg => "NotFound: " ++ msg
  | Error kCorruption msg => "Corruption: " ++ msg
  | Error kNotSupported msg => "Not implemented: " ++ msg
  | Error kInvalidArgument msg => "Invalid argument: " ++ msg
  | Error kIOError msg => "IO error: " ++ msg
  end.

(** The records of a database, in the order of the default (bytewise)
    comparator. *)
Definition Table : Type := list (string * string).

(** A failure of the storage medium: the status it reports and, for an
    iterator, the number of records delivered before it. *)
Record Fault : Type := { fault_code : Code; fault_msg : string; fault_reach : nat }.

Definition fault_status (f : Fault) : Status :=
  Error (fault_code f) (fault_msg f).

(** A database: its records and what the medium is going to do at the
    coming calls ([None]: the call goes through; past the end of the
    schedule every call goes through). *)
Record DB : Type := { table : Table; medium : list (option Fault) }.

Definition next_event (db : DB) : option Fault := hd None (medium db).

Definition advance (tbl : Table) (db : DB) : DB :=
  {| table := tbl; medium := tl (medium db) |}.

Fixpoint table_get (key : string) (tbl : Table) : option string :=
  match tbl with
  | [] => None
  | (k, v) :: tbl' => if String.eqb key k then Some v else table_get key tbl'
  end.

Fixpoint table_put (key value : string) (tbl : Table) : Table :=
  match tbl with
  | [] => [(key, value)]
  | (k, v) :: tbl' =>
      match String.compare key k with
      | Lt => (key, value) :: (k, v) :: tbl'
      | Eq => (key, value) :: tbl'
      | Gt => (k, v) :: table_put key value tbl'
      end
  end.

Fixpoint table_delete (key : string) (tbl : Table) : Table :=
  match tbl with
  | [] => []
  | (k, v) :: tbl' =>
      if String.eqb key k then table_delete key tbl'
      else (k, v) :: table_delete key tbl'
  end.

(** [DB::Open(options, name, &db)] with [create_if_missing]: the handle
    on what the location holds, or the medium's failure. *)
Definition Open (disk : DB) : Status * DB :=
  match next_event disk with
  | Some f => (fault_status f, advance (table disk) disk)
  | None => (OK, advance (table disk) disk)
  end.

(** [db->Put(WriteOptions(), key, value)] *)
Definition Put (key value : string) (db : DB) : Status * DB :=
  match next_event db with
  | Some f => (fault_status f, advance (table db) db)
  | None => (OK, advance (table_put key value (table db)) db)
  end.

(** [db->Delete(WriteOptions(), key)]; deleting an absent key is [OK]. *)
Definition Delete (key : string) (db : DB) : Status * DB :=
  match next_event db with
  | Some f => (fault_status f, advance (table db) db)
  | None => (OK, advance (table_delete key (table db)) db)
  end.

(** [db->Get(ReadOptions(), key, &value)]: [value] is written only on
    success. *)
Definition Get (key value : string) (db : DB) : Status * string * DB :=
  match next_event db with
  | Some f => (fault_status f, value, advance (table db) db)
  | None =>
      match table_get key (table db) with
      | Some v => (OK, v, advance (table db) db)
      | None => (Error kNotFound "", value, advance (table db) db)
      end
  end.

(** An iterator run from [SeekToFirst] until [Valid] is false: the
    records it delivers and its final [status()]. *)
Record Iterator : Type := { it_entries : Table; it_status : Status }.

Definition NewIterator (db : DB) : Iterator * DB :=
  match next_event db with
  | Some f =>
      ({| it_entries := take (fault_reach f) (table db);
          it_status := fault_status f |}, advance (table db) db)
  | None =>
      ({| it_entries := table db; it_status := OK |}, advance (table db) db)
  end.

End leveldb.

(** ** [TrainerInterface] *)

Definition Sentence : Type := string * Z.

(** The members the persistence methods read or write. *)
Record TrainerInterface : Type :=
  { db_ : leveldb.DB; current_index_ : N }.

Definition set_db (t : TrainerInterface) (db : leveldb.DB) : TrainerInterface :=
  {| db_ := db; current_index_ := current_index_ t |}.

(** The constructor: opens the database, [current_index_ = 0]. *)
Definition TrainerInterface_new (disk : leveldb.DB) : Outcome TrainerInterface :=
  let '(status, db) := leveldb.Open disk in
  if negb (leveldb.ok status)
  then Throw (runtime_error ("Failed to open LevelDB: " ++ leveldb.ToString status))
  else Return {| db_ := db; current_index_ := 0 |}.

(** [sentence.first + '\0' + std::to_string(sentence.second)] *)
Definition encode (sentence : Sentence) : string :=
  join_NUL (fst sentence) (to_string_int64 (snd sentence)).

Definition addSentenceToDB (sentence : Sentence) (t : TrainerInterface)
  : Outcome unit * TrainerInterface :=
  let key := to_string_size_t (current_index_ t) in
  let value := encode sentence in
  let '(s, db) := leveldb.Put key value (db_ t) in
  if negb (leveldb.ok s)
  then (Throw (runtime_error ("Failed to write to LevelDB: " ++ leveldb.ToString s)),
        set_db t db)
  else (Return tt, {| db_ := db; current_index_ := size_t_incr (current_index_ t) |}).

Definition removeSentenceFromDB (index : N) (t : TrainerInterface)
  : Outcome unit * TrainerInterface :=
  let key := to_string_size_t index in
  let '(s, db) := leveldb.Delete key (db_ t) in
  if negb (leveldb.ok s)
  then (Throw (runtime_error ("Failed to delete from LevelDB: " ++ leveldb.ToString s)),
        set_db t db)
  else (Return tt, set_db t db).

(** The decoding both readers apply to a stored value: split at the first
    NUL byte, the count is what [std::stoll] reads after it. *)
Definition decode (value : string) : Outcome Sentence :=
  match find_NUL value with
  | None => Throw (runtime_error "Corrupted value in LevelDB")
  | Some pos =>
      let sentence := substr_to pos value in
      match stoll (substr_from (pos + 1) value) with
      | Throw e => Throw e
      | Return count => Return (sentence, count)
      end
  end.

(** What one turn of the loop sends to [std::cout]. *)
Definition print_record (r : Sentence) : string :=
  "Sentence: " ++ fst r ++ ", Count: " ++ to_string_int64 (snd r)
    ++ String "010"%char EmptyString.

(** The loop of [loadSentencesFromDB] over the records the iterator
    delivers: the lines printed, and how the loop ends. *)
Fixpoint load_loop (entries : leveldb.Table) : list string * Outcome unit :=
  match entries with
  | [] => ([], Return tt)
  | (key, value) :: rest =>
      match decode value with
      | Throw e => ([], Throw e)
      | Return r =>
          let '(out, o) := load_loop rest in (print_record r :: out, o)
      end
  end.

(** Returns the lines written to [std::cout] as well. *)
Definition loadSentencesFromDB (t : TrainerInterface)
  : list string * Outcome unit * TrainerInterface :=
  let '(it, db) := leveldb.NewIterator (db_ t) in
  match load_loop (leveldb.it_entries it) with
  | (out, Throw e) => (out, Throw e, set_db t db)
  | (out, Return _) =>
      if negb (leveldb.ok (leveldb.it_status it))
      then (out, Throw (runtime_error ("Failed to iterate LevelDB: "
                                         ++ leveldb.ToString (leveldb.it_status it))),
            set_db t db)
      else (out, Return tt, set_db t db)
  end.

Definition getSentenceFromDB (index : N) (t : TrainerInterface)
  : Outcome Sentence * TrainerInterface :=
  let key := to_string_size_t index in
  let '(s, value, db) := leveldb.Get key "" (db_ t) in
  if negb (leveldb.ok s)
  then (Throw (out_of_range ("Index out of range or failed to read from LevelDB: "
                               ++ leveldb.ToString s)), set_db t db)
  else (decode value, set_db t db).

Definition updateSentenceInDB (index : N) (newSentence : Sentence)
    (t : TrainerInterface) : Outcome unit * TrainerInterface :=
  let key := to_string_size_t index in
  let value := encode newSentence in
  let '(s, db) := leveldb.Put key value (db_ t) in
  if negb (leveldb.ok s)
  then (Throw (runtime_error ("Failed to update LevelDB: " ++ leveldb.ToString s)),
        set_db t db)
  else (Return tt, set_db t db).

Definition getDBSize (t : TrainerInterface) : Outcome N * TrainerInterface :=
  let '(it, db) := leveldb.NewIterator (db_ t) in
  let count := fold_left (fun count _ => size_t_incr count) (leveldb.it_entries it) 0%N in
  if negb (leveldb.ok (leveldb.it_status it))
  then (Throw (runtime_error ("Failed to iterate LevelDB: "
                                ++ leveldb.ToString (leveldb.it_status it))),
        set_db t db)
  else (Return count, set_db t db).

(** ** Callers of the store *)

(** A caller that inserts the sentences one after the other and goes on
    after a failed insert (the outcomes are kept in call order). *)
Fixpoint addSentences (sentences : list Sentence) (t : TrainerInterface)
  : list (Outcome unit) * TrainerInterface :=
  match sentences with
  | [] => ([], t)
  | s :: rest =>
      let '(o, t1) := addSentenceToDB s t in
      let '(os, t2) := addSentences rest t1 in
      (o :: os, t2)
  end.

(** The mutating store operations, as data. *)
Inductive StoreOp : Type :=
  | Insert (sentence : Sentence)
  | Update (index : N) (sentence : Sentence)
  | Remove (index : N).

Definition run_op (op : StoreOp) (t : TrainerInterface) : Outcome unit * TrainerInterface :=
  match op with
  | Insert s => addSentenceToDB s t
  | Update i s => updateSentenceInDB i s t
  | Remove i => removeSentenceFromDB i t
  end.

Definition run_ops (ops : list StoreOp) (t : TrainerInterface) : TrainerInterface :=
  fold_left (fun t op => snd (run_op op t)) ops t.

(** ** Vocabulary of the statements *)

(** The text has a NUL byte somewhere. *)
Fixpoint contains_NUL (s : string) : bool :=
  match s with
  | EmptyString => false
  | String c s' => Ascii.eqb c NUL || contains_NUL s'
  end.

(** The bytes in front of the first NUL byte (all of them if there is
    none). *)
Fixpoint before_NUL (s : string) : string :=
  match s with
  | EmptyString => EmptyString
  | String c s' => if Ascii.eqb c NUL then EmptyString else String c (before_NUL s')
  end.

(** The bytes behind the first NUL byte. *)
Fixpoint after_NUL (s : string) : string :=
  match s with
  | EmptyString => EmptyString
  | String c s' => if Ascii.eqb c NUL then s' else after_NUL s'
  end.

(** The medium reports no failure any more. *)
Definition healthy (t : TrainerInterface) : Prop := leveldb.medium (db_ t) = [].

(** The record stored under an id, if any. *)
Definition record_at (index : N) (t : TrainerInterface) : option string :=
  leveldb.table_get (to_string_size_t index) (leveldb.table (db_ t)).

(** Keys strictly ascending in the bytewise order. *)
Definition keys_ascending (tbl : leveldb.Table) : Prop :=
  StronglySorted (fun a b => String.ltb a b = true) (map fst tbl).

Definition empty_disk : leveldb.DB := {| leveldb.table := []; leveldb.medium := [] |}.

(** The trainer a successful construction over an empty location gives. *)
Definition fresh_trainer : TrainerInterface := {| db_ := empty_disk; current_index_ := 0 |}.

(** The next [n] LevelDB calls go through. *)
Fixpoint quiet (n : nat) (m : list (option leveldb.Fault)) : bool :=
  match n, m with
  | O, _ => true
  | S _, [] => true
  | S n', None :: m' => quiet n' m'
  | S _, Some _ :: _ => false
  end.

Definition calls_go_through (n : nat) (t : TrainerInterface) : Prop :=
  quiet n (leveldb.medium (db_ t)) = true.

(** The trainer after a LevelDB call that left the records alone. *)
Definition tick (t : TrainerInterface) : TrainerInterface :=
  set_db t (leveldb.advance (leveldb.table (db_ t)) (db_ t)).

(** The trainer after a LevelDB call that wrote [value] under [key]. *)
Definition tick_put (key value : string) (t : TrainerInterface) : TrainerInterface :=
  set_db t (leveldb.advance (leveldb.table_put key value (leveldb.table (db_ t))) (db_ t)).

(** A sentence the encoding carries faithfully: no NUL byte in the text,
    a count in the [int64_t] range. *)
Definition plain (s : Sentence) : Prop :=
  contains_NUL (fst s) = false /\ is_int64 (snd s).

(** Every stored record decodes to a sentence with a count of at least 1. *)
Definition counts_positive (tbl : leveldb.Table) : Prop :=
  forall k v, (k, v) ∈ tbl ->
    exists text count, decode v = Return (text, count) /\ (1 <= count)%Z.

(** The sentence an operation hands to the store, if any. *)
Definition op_sentence (op : StoreOp) : option Sentence :=
  match op with
  | Insert s | Update _ s => Some s
  | Remove _ => None
  end.

(** The number of normal returns among some outcomes. *)
Definition successes {A} (os : list (Outcome A)) : nat :=
  length (filter (fun o => returns o = true) os).

(** The sentences of a corpus tagged with the keys of the ids [i], [i+1],
    ..., in insertion order. *)
Fixpoint numbered_from (i : N) (sentences : list Sentence) : list (string * Sentence) :=
  match sentences with
  | [] => []
  | s :: rest => (to_string_size_t i, s) :: numbered_from (i + 1) rest
  end.


(** The sentence a stored value stands for (the empty sentence when it
    does not decode). *)
Definition stored_sentence (value : string) : Sentence :=
  match decode value with
  | Return s => s
  | Throw _ => ("", 0%Z)
  end.

(** A tagged sentence as the store holds it: the key and the encoded
    value. *)
Definition as_record (e : string * Sentence) : string * string :=
  (fst e, encode (snd e)).


(** ** Ranked lists *)

(** No element is preceded by one it must precede. *)
Definition ranked {A} (before : A -> A -> bool) (v : list A) : Prop :=
  StronglySorted (fun a b => before b a = false) v.

(** ** Scores that are no number *)

(** A [float] score as far as ranking goes: NaN or a number (an integral
    one is all the examples need), compared as IEEE 754 compares them:
    every comparison with NaN is false. *)
Inductive score : Type :=
  | NaN
  | Num (z : Z).

(** [operator>] on scores *)
Definition score_gt (a b : score) : bool :=
  match a, b with
  | Num x, Num y => Z.gtb x y
  | _, _ => false
  end.

(** [operator==] on scores *)
Definition score_eq (a b : score) : bool :=
  match a, b with
  | Num x, Num y => Z.eqb x y
  | _, _ => false
  end.

(** ** Sample inputs *)

(** Four pieces, the third with a NaN score. *)
Definition pieces_with_NaN : list (string * score) :=
  [("w", Num 3); ("x", Num 1); ("y", NaN); ("z", Num 2)].


(** The three bytes [a], NUL, [b]. *)
Definition a_NUL_b : string := String "a" (String NUL "b").

(** The three bytes [a], NUL, [7]. *)
Definition a_NUL_7 : string := String "a" (String NUL "7").

Definition disk_full : leveldb.Fault :=
  {| leveldb.fault_code := leveldb.kIOError;
     leveldb.fault_msg := "disk full";
     leveldb.fault_reach := 0 |}.

(** An empty store whose medium rejects the next call. *)
Definition failing_trainer : TrainerInterface :=
  {| db_ := {| leveldb.table := []; leveldb.medium := [Some disk_full] |};
     current_index_ := 0 |}.


(** The store after [updateSentenceInDB 0 ("a\0b", 5)] on an empty one. *)
Definition store_a_NUL_b : TrainerInterface :=
  snd (updateSentenceInDB 0 (a_NUL_b, 5%Z) fresh_trainer).

(** The store after inserting [("a", 0)] into an empty one. *)
Definition store_zero_count : TrainerInterface :=
  run_ops [Insert ("a", 0%Z)] fresh_trainer.


(** ** [Sorted] over a hash map *)

Section RankingMap.
Context {K V : Type} `{Countable K}.
Variable ltK : K -> K -> bool.
Variable gtV : V -> V -> bool.
Variable eqV : V -> V -> bool.

(** The overload for [absl::flat_hash_map]: the entries of the map, in the
    order its iterators yield them, are copied into a vector and ranked by
    the overload for vectors. The map is a finite map with one value per
    key; [map_to_list] stands for the (unspecified) iteration order. *)
Definition Sorted_map (m : gmap K V) : list (K * V) :=
  let v := map_to_list m in
  Sorted ltK gtV eqV v.
End RankingMap.

(** ** Further vocabulary *)

(** Every stored value has the separator. *)
Definition values_separated (tbl : leveldb.Table) : Prop :=
  forall k v, (k, v) ∈ tbl -> contains_NUL v = true.

(** Every key is the decimal text of an id. *)
Definition keys_are_ids (tbl : leveldb.Table) : Prop :=
  forall k, k ∈ map fst tbl -> exists index, k = to_string_size_t index.

(** The order [comp] induces is total: two pairs neither of which has to
    precede the other are the same pair. *)
Definition total {A} (before : A -> A -> bool) : Prop :=
  forall a b, before a b = false -> before b a = false -> a = b.

(** [isdigit] *)
Definition isdigit (c : ascii) : bool :=
  match digit_of c with Some _ => true | None => false end.

(** A store holding one sound record and one value without separator, as
    another writer to the same location could leave it. *)
Definition store_with_junk : TrainerInterface :=
  {| db_ := {| leveldb.table := [("0", encode ("a", 1%Z)); ("1", "junk"); ("2", encode ("c", 1%Z))];
               leveldb.medium := [] |};
     current_index_ := 0 |}.

(** A location that already holds two records of an earlier run. *)
Definition used_disk : leveldb.DB :=
  {| leveldb.table := [("0", encode ("old", 4%Z)); ("1", encode ("older", 9%Z))];
     leveldb.medium := [] |}.

(** A trainer whose counter has reached the last [size_t]. *)
Definition last_id_trainer : TrainerInterface :=
  {| db_ := empty_disk; current_index_ := SIZE_MAX |}.

(** The line feed [std::endl] writes. *)
Definition LF : ascii := "010"%char.

(** The number of line feeds in some bytes: the number of lines they end. *)
Fixpoint count_LF (s : string) : nat :=
  match s with
  | EmptyString => 0
  | String c s' => (if Ascii.eqb c LF then 1 else 0) + count_LF s'
  end.

(** What reaches [std::cout]: the output of the loop turns, one after the
    other. *)
Definition stdout_bytes (out : list string) : string :=
  fold_right String.append EmptyString out.

(** * Properties *)

(** ** The library functions on sample inputs *)

Example stoll_ex1 : stoll "42" = Return 42%Z.
Proof. reflexivity. Qed.
Example stoll_ex2 : stoll "  -17abc" = Return (-17)%Z.
Proof. reflexivity. Qed.
Example stoll_ex3 : stoll "b" = Throw (invalid_argument "stoll").
Proof. reflexivity. Qed.
Example stoll_ex4 : stoll "9223372036854775808" = Throw (out_of_range "stoll").
Proof. reflexivity. Qed.
Example stoll_ex5 : stoll (to_string_int64 INT64_MIN) = Return INT64_MIN.
Proof. reflexivity. Qed.
Example to_string_ex : to_string_size_t 10 = "10" /\ to_string_int64 (-5) = "-5"
  /\ to_string_int64 0 = "0".
Proof. repeat split. Qed.

(** ** Byte strings *)

(** Induction along the bytes of [s], with the case of a NUL head byte and
    the empty string closed when they are immediate. *)
Ltac by_bytes s :=
  let c := fresh "c" in
  let IH := fresh "IH" in
  induction s as [|c s IH]; simpl; [easy|];
  destruct (Ascii.eqb c NUL) eqn:?; simpl; [easy|].

Section StringFacts.

Lemma find_NUL_none (s : string) :
  contains_NUL s = false -> find_NUL s = None.
Proof.
  by_bytes s. intros H. now rewrite IH.
Qed.

Lemma find_NUL_some (s : string) :
  contains_NUL s = true -> find_NUL s = Some (String.length (before_NUL s)).
Proof.
  by_bytes s. intros H. now rewrite IH.
Qed.

Lemma contains_NUL_app (s r : string) :
  contains_NUL (s ++ r) = contains_NUL s || contains_NUL r.
Proof.
  induction s as [|c s IH]; simpl; [easy|].
  now rewrite IH, orb_assoc.
Qed.

Lemma contains_NUL_join (s r : string) : contains_NUL (join_NUL s r) = true.
Proof.
  unfold join_NUL. rewrite contains_NUL_app. simpl. apply orb_true_r.
Qed.

Lemma before_NUL_join (s r : string) :
  before_NUL (join_NUL s r) = before_NUL s.
Proof.
  unfold join_NUL. by_bytes s. now rewrite IH.
Qed.

Lemma before_NUL_id (s : string) : contains_NUL s = false -> before_NUL s = s.
Proof.
  by_bytes s. intros H. now rewrite IH.
Qed.

Lemma after_NUL_join (s r : string) :
  after_NUL (join_NUL s r) =
  if contains_NUL s then join_NUL (after_NUL s) r else r.
Proof.
  unfold join_NUL. by_bytes s. exact IH.
Qed.

Lemma substr_to_before (s : string) :
  substr_to (String.length (before_NUL s)) s = before_NUL s.
Proof.
  by_bytes s. now rewrite IH.
Qed.

Lemma substr_from_after (s : string) :
  contains_NUL s = true ->
  substr_from (String.length (before_NUL s) + 1) s = after_NUL s.
Proof.
  by_bytes s. exact IH.
Qed.

Lemma before_NUL_clean (s : string) : contains_NUL (before_NUL s) = false.
Proof.
  by_bytes s.
  match goal with E : Ascii.eqb _ NUL = false |- _ => now rewrite E end.
Qed.

Lemma before_NUL_shorter (s : string) :
  contains_NUL s = true -> before_NUL s <> s.
Proof.
  intros H E. rewrite <- E, before_NUL_clean in H. discriminate.
Qed.

End StringFacts.

(** [decode] splits at the first NUL byte. *)
Lemma decode_split (value : string) :
  decode value =
  if contains_NUL value then
    match stoll (after_NUL value) with
    | Throw e => Throw e
    | Return count => Return (before_NUL value, count)
    end
  else Throw (runtime_error "Corrupted value in LevelDB").
Proof.
  unfold decode.
  destruct (contains_NUL value) eqn:E.
  - rewrite (find_NUL_some _ E), substr_to_before, (substr_from_after _ E).
    reflexivity.
  - now rewrite (find_NUL_none _ E).
Qed.

(** ** Decimal rendering and [std::stoll] *)

Section Decimal.

Lemma digits_acc_pos (d : uint) (acc : positive) :
  digits_acc (NilEmpty.string_of_uint d) (Npos acc) true
  = Some (Npos (Pos.of_uint_acc d acc)).
Proof.
  revert acc.
  induction d as [|d IH|d IH|d IH|d IH|d IH|d IH|d IH|d IH|d IH|d IH];
    intros acc; [reflexivity|..];
    cbn [NilEmpty.string_of_uint digits_acc Pos.of_uint_acc];
    match goal with
    | |- context [digit_of ?c] =>
        let v := eval vm_compute in (digit_of c) in
        change (digit_of c) with v; cbv iota
    end;
    rewrite <- IH; f_equal; lia.
Qed.

Lemma digits_acc_uint (d : uint) (seen : bool) :
  d <> Nil \/ seen = true ->
  digits_acc (NilEmpty.string_of_uint d) 0%N seen = Some (Pos.of_uint d).
Proof.
  revert seen.
  induction d as [|d IH|d IH|d IH|d IH|d IH|d IH|d IH|d IH|d IH|d IH];
    intros seen Hs.
  - destruct Hs as [ Hs | Hs ]; [now destruct Hs | now subst seen].
  - cbn [NilEmpty.string_of_uint digits_acc Pos.of_uint].
    change (digit_of "0") with (Some 0%N); cbv iota.
    change (10 * 0 + 0)%N with 0%N. apply IH. now right.
  - apply (digits_acc_pos d 1).
  - apply (digits_acc_pos d 2).
  - apply (digits_acc_pos d 3).
  - apply (digits_acc_pos d 4).
  - apply (digits_acc_pos d 5).
  - apply (digits_acc_pos d 6).
  - apply (digits_acc_pos d 7).
  - apply (digits_acc_pos d 8).
  - apply (digits_acc_pos d 9).
Qed.

(** A rendered number starts with a digit: no white space, no sign. *)
Lemma string_of_uint_head (d : uint) :
  d <> Nil ->
  exists c r, NilEmpty.string_of_uint d = String c r
              /\ isspace c = false /\ c <> "-"%char /\ c <> "+"%char.
Proof.
  destruct d; [easy|..]; intros _; eexists _, _;
    (split; [reflexivity|]); repeat split; discriminate.
Qed.

Lemma stoll_digits (d : uint) :
  d <> Nil ->
  stoll (NilEmpty.string_of_uint d) =
  if (Z.of_N (Pos.of_uint d) <=? INT64_MAX)%Z
  then Return (Z.of_N (Pos.of_uint d)) else Throw (out_of_range "stoll").
Proof.
  intros Hd. unfold stoll.
  destruct (string_of_uint_head d Hd) as (c & r & E & Hsp & Hm & Hp).
  assert (Hskip : skip_space (NilEmpty.string_of_uint d) = NilEmpty.string_of_uint d).
  { rewrite E. simpl. now rewrite Hsp. }
  rewrite Hskip.
  assert (Hsign : match NilEmpty.string_of_uint d with
                  | String "-" r => (true, r)
                  | String "+" r => (false, r)
                  | _ => (false, NilEmpty.string_of_uint d)
                  end = (false, NilEmpty.string_of_uint d)).
  { rewrite E.
    destruct c as [[] [] [] [] [] [] [] []]; try reflexivity; congruence. }
  rewrite Hsign, digits_acc_uint by now left.
  assert ((INT64_MIN <=? Z.of_N (Pos.of_uint d))%Z = true) as ->
    by (apply Z.leb_le; unfold INT64_MIN; lia).
  reflexivity.
Qed.

Lemma stoll_minus_digits (d : uint) :
  d <> Nil ->
  stoll (String "-" (NilEmpty.string_of_uint d)) =
  if (INT64_MIN <=? - Z.of_N (Pos.of_uint d))%Z
  then Return (- Z.of_N (Pos.of_uint d))%Z else Throw (out_of_range "stoll").
Proof.
  intros Hd. unfold stoll.
  change (skip_space (String "-" (NilEmpty.string_of_uint d)))
    with (String "-" (NilEmpty.string_of_uint d)).
  cbv iota beta. rewrite digits_acc_uint by now left.
  assert ((- Z.of_N (Pos.of_uint d) <=? INT64_MAX)%Z = true) as ->
    by (apply Z.leb_le; unfold INT64_MAX; lia).
  now rewrite andb_true_r.
Qed.

(** [std::stoll] reads back what [std::to_string] wrote. *)
Lemma stoll_to_string (z : Z) :
  is_int64 z -> stoll (to_string_int64 z) = Return z.
Proof.
  intros [Hlo Hhi]. unfold to_string_int64.
  destruct z as [|p|p]; [reflexivity|..]; simpl Z.to_int;
    pose proof (DecimalPos.Unsigned.to_uint_nonnil p) as Hn;
    cbn [NilZero.string_of_int];
    (assert (NilZero.string_of_uint (Pos.to_uint p)
             = NilEmpty.string_of_uint (Pos.to_uint p)) as ->
      by (destruct (Pos.to_uint p); [congruence|reflexivity..])).
  - rewrite stoll_digits, DecimalPos.Unsigned.of_to by assumption.
    apply Z.leb_le in Hhi. change (Z.of_N (N.pos p)) with (Z.pos p). now rewrite Hhi.
  - rewrite stoll_minus_digits, DecimalPos.Unsigned.of_to by assumption.
    apply Z.leb_le in Hlo. change (- Z.of_N (N.pos p))%Z with (Z.neg p). now rewrite Hlo.
Qed.

Lemma to_string_size_t_inj (i j : N) :
  to_string_size_t i = to_string_size_t j -> i = j.
Proof.
  unfold to_string_size_t. intros E.
  apply DecimalN.Unsigned.to_uint_inj.
  assert (Hn : forall n, N.to_uint n <> Nil).
  { intros [|p]; [discriminate|apply DecimalPos.Unsigned.to_uint_nonnil]. }
  pose proof (NilZero.usu _ (Hn i)) as Hi.
  pose proof (NilZero.usu _ (Hn j)) as Hj.
  rewrite E in Hi. congruence.
Qed.

End Decimal.

(** ** The bytewise order on keys *)

Section KeyOrder.

Lemma ascii_compare_refl (a : ascii) : Ascii.compare a a = Eq.
Proof. unfold Ascii.compare. apply N.compare_refl. Qed.

Lemma ascii_compare_lt_trans (a b c : ascii) :
  Ascii.compare a b = Lt -> Ascii.compare b c = Lt -> Ascii.compare a c = Lt.
Proof.
  unfold Ascii.compare. rewrite !N.compare_lt_iff. lia.
Qed.

Lemma string_compare_refl (s : string) : String.compare s s = Eq.
Proof.
  induction s as [|c s IH]; simpl; [easy|]. now rewrite ascii_compare_refl.
Qed.

Lemma string_compare_eq (s r : string) : String.compare s r = Eq <-> s = r.
Proof.
  split; [apply String.compare_eq_iff|intros ->; apply string_compare_refl].
Qed.

Lemma string_compare_lt_trans (a b c : string) :
  String.compare a b = Lt -> String.compare b c = Lt -> String.compare a c = Lt.
Proof.
  revert b c.
  induction a as [|x a IH]; intros [|y b] [|z c]; simpl; try easy.
  destruct (Ascii.compare x y) eqn:Exy; try easy;
    destruct (Ascii.compare y z) eqn:Eyz; try easy.
  - apply Ascii.compare_eq_iff in Exy, Eyz. subst.
    rewrite ascii_compare_refl. apply IH.
  - apply Ascii.compare_eq_iff in Exy. subst. now rewrite Eyz.
  - apply Ascii.compare_eq_iff in Eyz. subst. now rewrite Exy.
  - now rewrite (ascii_compare_lt_trans _ _ _ Exy Eyz).
Qed.

Lemma string_ltb_irrefl (s : string) : String.ltb s s = false.
Proof. unfold String.ltb. now rewrite string_compare_refl. Qed.

Lemma string_ltb_trans (a b c : string) :
  String.ltb a b = true -> String.ltb b c = true -> String.ltb a c = true.
Proof.
  unfold String.ltb.
  destruct (String.compare a b) eqn:E1; try easy.
  destruct (String.compare b c) eqn:E2; try easy.
  now rewrite (string_compare_lt_trans _ _ _ E1 E2).
Qed.

Lemma string_ltb_total (a b : string) :
  String.ltb a b = false -> String.ltb b a = false -> a = b.
Proof.
  unfold String.ltb. rewrite (String.compare_antisym b a).
  destruct (String.compare a b) eqn:E; simpl; try easy.
  intros _ _. now apply String.compare_eq_iff.
Qed.

Lemma string_compare_gt (a b : string) :
  String.compare a b = Gt -> String.ltb b a = true.
Proof.
  unfold String.ltb. rewrite (String.compare_antisym a b).
  now destruct (String.compare b a).
Qed.

End KeyOrder.

(** ** The table of a database *)

Section TableFacts.
Import leveldb.

Lemma table_get_put_eq (k v : string) (tbl : Table) :
  table_get k (table_put k v tbl) = Some v.
Proof.
  induction tbl as [|[k' v'] tbl IH]; simpl.
  - now rewrite String.eqb_refl.
  - destruct (String.compare k k') eqn:E; simpl.
    + now rewrite String.eqb_refl.
    + now rewrite String.eqb_refl.
    + destruct (String.eqb_spec k k') as [->|_]; [|exact IH].
      now rewrite string_compare_refl in E.
Qed.

Lemma table_get_put_ne (k k' v : string) (tbl : Table) :
  k <> k' -> table_get k' (table_put k v tbl) = table_get k' tbl.
Proof.
  intros Hne.
  assert (Hk : String.eqb k' k = false) by (apply String.eqb_neq; congruence).
  induction tbl as [|[k0 v0] tbl IH]; simpl.
  - now rewrite Hk.
  - destruct (String.compare k k0) eqn:E; simpl.
    + apply String.compare_eq_iff in E. subst k0. now rewrite Hk.
    + now rewrite Hk.
    + now rewrite IH.
Qed.

Lemma table_get_delete_eq (k : string) (tbl : Table) :
  table_get k (table_delete k tbl) = None.
Proof.
  induction tbl as [|[k0 v0] tbl IH]; simpl; [easy|].
  destruct (String.eqb k k0) eqn:E; simpl; [easy|]. now rewrite E.
Qed.

Lemma table_get_delete_ne (k k' : string) (tbl : Table) :
  k <> k' -> table_get k' (table_delete k tbl) = table_get k' tbl.
Proof.
  intros Hne.
  induction tbl as [|[k0 v0] tbl IH]; simpl; [easy|].
  destruct (String.eqb_spec k k0) as [->|Hk]; simpl.
  - destruct (String.eqb_spec k' k0); [congruence|exact IH].
  - now rewrite IH.
Qed.

Lemma table_put_elem (k v : string) (tbl : Table) (e : string * string) :
  e ∈ table_put k v tbl -> e = (k, v) \/ e ∈ tbl.
Proof.
  induction tbl as [|[k0 v0] tbl IH]; simpl.
  - rewrite list_elem_of_singleton. now left.
  - destruct (String.compare k k0); rewrite !elem_of_cons; intuition.
Qed.

Lemma table_delete_elem (k : string) (tbl : Table) (e : string * string) :
  e ∈ table_delete k tbl -> e ∈ tbl.
Proof.
  induction tbl as [|[k0 v0] tbl IH]; simpl; [easy|].
  destruct (String.eqb k k0); rewrite ?elem_of_cons; intuition.
Qed.

Lemma table_get_None (k : string) (tbl : Table) :
  table_get k tbl = None <-> k ∉ map fst tbl.
Proof.
  induction tbl as [|[k0 v0] tbl IH]; simpl.
  - split; [intros _; apply not_elem_of_nil|easy].
  - rewrite not_elem_of_cons.
    destruct (String.eqb_spec k k0); [subst|]; split; intuition; discriminate.
Qed.

Lemma table_put_fresh (k v : string) (tbl : Table) :
  table_get k tbl = None -> table_put k v tbl ≡ₚ (k, v) :: tbl.
Proof.
  induction tbl as [|[k0 v0] tbl IH]; simpl; [easy|].
  destruct (String.eqb_spec k k0) as [->|Hne]; [easy|]. intros Hn.
  destruct (String.compare k k0) eqn:E.
  - apply String.compare_eq_iff in E. congruence.
  - reflexivity.
  - rewrite (IH Hn). apply Permutation_swap.
Qed.

Lemma table_put_keys (k v : string) (tbl : Table) (x : string) :
  x ∈ map fst (table_put k v tbl) -> x = k \/ x ∈ map fst tbl.
Proof.
  rewrite !list_elem_of_fmap. intros ([k1 v1] & -> & Hin).
  apply table_put_elem in Hin as [[= -> ->]|Hin]; [now left|right].
  exists (k1, v1). split; [reflexivity|assumption].
Qed.

Lemma keys_ascending_put (k v : string) (tbl : Table) :
  keys_ascending tbl -> keys_ascending (table_put k v tbl).
Proof.
  unfold keys_ascending.
  induction tbl as [|[k0 v0] tbl IH]; simpl; intros Hs.
  - repeat constructor.
  - apply StronglySorted_inv in Hs as [Hs Hall].
    destruct (String.compare k k0) eqn:E; simpl.
    + apply String.compare_eq_iff in E. subst k0. now constructor.
    + assert (Hlt : String.ltb k k0 = true) by (unfold String.ltb; now rewrite E).
      constructor; [now constructor|].
      constructor; [exact Hlt|].
      eapply Forall_impl; [exact Hall|].
      intros x Hx. now apply (string_ltb_trans _ k0).
    + constructor; [now apply IH|].
      apply Forall_forall. intros x Hx.
      apply table_put_keys in Hx as [->|Hx].
      * now apply string_compare_gt.
      * rewrite Forall_forall in Hall. now apply Hall.
Qed.

Lemma keys_ascending_delete (k : string) (tbl : Table) :
  keys_ascending tbl -> keys_ascending (table_delete k tbl).
Proof.
  unfold keys_ascending.
  induction tbl as [|[k0 v0] tbl IH]; simpl; intros Hs; [constructor|].
  apply StronglySorted_inv in Hs as [Hs Hall].
  destruct (String.eqb k k0); simpl; [now apply IH|].
  constructor; [now apply IH|].
  apply Forall_forall. intros x Hx.
  rewrite Forall_forall in Hall. apply Hall.
  rewrite list_elem_of_fmap in *. destruct Hx as (e & -> & He).
  exists e. split; [reflexivity|]. now apply table_delete_elem in He.
Qed.

End TableFacts.

(** ** One call of each store method *)

Section Calls.
Import leveldb.

Lemma quiet_next (n : nat) (t : TrainerInterface) :
  calls_go_through (S n) t ->
  next_event (db_ t) = None /\ calls_go_through n (tick t).
Proof.
  unfold calls_go_through, next_event, tick. simpl.
  destruct (medium (db_ t)) as [|[f|] m]; simpl; try easy.
  now destruct n.
Qed.

Lemma quiet_next_put (n : nat) (key value : string) (t : TrainerInterface) :
  calls_go_through (S n) t -> calls_go_through n (tick_put key value t).
Proof. intros H. now apply quiet_next in H. Qed.

(** After a write, the second of two calls that go through. *)
Lemma quiet_after_put (key value : string) (t : TrainerInterface) :
  calls_go_through 2 t -> next_event (db_ (tick_put key value t)) = None.
Proof.
  intros Hq. apply (quiet_next_put 1 key value) in Hq.
  now apply (quiet_next 0) in Hq.
Qed.

Lemma healthy_quiet (n : nat) (t : TrainerInterface) :
  healthy t -> calls_go_through n t.
Proof.
  unfold healthy, calls_go_through. intros ->. now destruct n.
Qed.


Lemma addSentenceToDB_ok (s : Sentence) (t : TrainerInterface) :
  next_event (db_ t) = None ->
  addSentenceToDB s t =
  (Return tt,
   {| db_ := db_ (tick_put (to_string_size_t (current_index_ t)) (encode s) t);
      current_index_ := size_t_incr (current_index_ t) |}).
Proof. intros H. unfold addSentenceToDB, Put. now rewrite H. Qed.

Lemma addSentenceToDB_fail (s : Sentence) (t : TrainerInterface) (f : Fault) :
  next_event (db_ t) = Some f ->
  addSentenceToDB s t =
  (Throw (runtime_error ("Failed to write to LevelDB: " ++ ToString (fault_status f))),
   tick t).
Proof. intros H. unfold addSentenceToDB, Put. now rewrite H. Qed.

Lemma updateSentenceInDB_ok (index : N) (s : Sentence) (t : TrainerInterface) :
  next_event (db_ t) = None ->
  updateSentenceInDB index s t =
  (Return tt, tick_put (to_string_size_t index) (encode s) t).
Proof. intros H. unfold updateSentenceInDB, Put. now rewrite H. Qed.

Lemma updateSentenceInDB_fail (index : N) (s : Sentence) (t : TrainerInterface)
    (f : Fault) :
  next_event (db_ t) = Some f ->
  updateSentenceInDB index s t =
  (Throw (runtime_error ("Failed to update LevelDB: " ++ ToString (fault_status f))),
   tick t).
Proof. intros H. unfold updateSentenceInDB, Put. now rewrite H. Qed.

Lemma removeSentenceFromDB_ok (index : N) (t : TrainerInterface) :
  next_event (db_ t) = None ->
  removeSentenceFromDB index t =
  (Return tt,
   set_db t (advance (table_delete (to_string_size_t index) (table (db_ t))) (db_ t))).
Proof. intros H. unfold removeSentenceFromDB, Delete. now rewrite H. Qed.

Lemma removeSentenceFromDB_fail (index : N) (t : TrainerInterface) (f : Fault) :
  next_event (db_ t) = Some f ->
  removeSentenceFromDB index t =
  (Throw (runtime_error ("Failed to delete from LevelDB: " ++ ToString (fault_status f))),
   tick t).
Proof. intros H. unfold removeSentenceFromDB, Delete. now rewrite H. Qed.

Lemma getSentenceFromDB_ok (index : N) (t : TrainerInterface) :
  next_event (db_ t) = None ->
  getSentenceFromDB index t =
  (match record_at index t with
   | Some value => decode value
   | None => Throw (out_of_range
       "Index out of range or failed to read from LevelDB: NotFound: ")
   end, tick t).
Proof.
  intros H. unfold getSentenceFromDB, Get, record_at. rewrite H.
  now destruct (table_get _ _).
Qed.

Lemma getSentenceFromDB_fail (index : N) (t : TrainerInterface) (f : Fault) :
  next_event (db_ t) = Some f ->
  getSentenceFromDB index t =
  (Throw (out_of_range ("Index out of range or failed to read from LevelDB: "
                          ++ ToString (fault_status f))), tick t).
Proof. intros H. unfold getSentenceFromDB, Get. now rewrite H. Qed.

Lemma record_at_tick (index : N) (t : TrainerInterface) :
  record_at index (tick t) = record_at index t.
Proof. reflexivity. Qed.

Lemma record_at_put_eq (index : N) (value : string) (t : TrainerInterface) :
  record_at index (tick_put (to_string_size_t index) value t) = Some value.
Proof. apply table_get_put_eq. Qed.

Lemma record_at_put_ne (i j : N) (value : string) (t : TrainerInterface) :
  i <> j ->
  record_at j (tick_put (to_string_size_t i) value t) = record_at j t.
Proof.
  intros Hne. apply table_get_put_ne.
  intros E. now apply to_string_size_t_inj in E.
Qed.

(** What [decode] makes of an encoded sentence. *)
Lemma decode_encode_plain (s : Sentence) : plain s -> decode (encode s) = Return s.
Proof.
  destruct s as [text count]. intros [Hn Hc]. simpl in *.
  rewrite decode_split. unfold encode. simpl fst; simpl snd.
  rewrite contains_NUL_join, after_NUL_join, before_NUL_join, Hn.
  now rewrite stoll_to_string, before_NUL_id.
Qed.

Lemma decode_encode_NUL (text : string) (count : Z) :
  contains_NUL text = true ->
  decode (encode (text, count)) =
  match stoll (join_NUL (after_NUL text) (to_string_int64 count)) with
  | Throw e => Throw e
  | Return count' => Return (before_NUL text, count')
  end.
Proof.
  intros Hn. rewrite decode_split. unfold encode. simpl fst; simpl snd.
  now rewrite contains_NUL_join, after_NUL_join, before_NUL_join, Hn.
Qed.

End Calls.

(** The store on sample inputs. *)
Example store_ex_insert :
  leveldb.table (db_ (snd (addSentences [("a b", 1%Z); ("a b", 1%Z); ("c", 1%Z)]
                             fresh_trainer)))
  = [("0", join_NUL "a b" "1"); ("1", join_NUL "a b" "1"); ("2", join_NUL "c" "1")].
Proof. reflexivity. Qed.

Example store_ex_get :
  fst (getSentenceFromDB 2 (snd (addSentences [("a b", 1%Z); ("a b", 1%Z); ("c", 1%Z)]
                                   fresh_trainer)))
  = Return ("c", 1%Z).
Proof. reflexivity. Qed.

Example store_ex_get_absent :
  fst (getSentenceFromDB 3 fresh_trainer)
  = Throw (out_of_range "Index out of range or failed to read from LevelDB: NotFound: ").
Proof. reflexivity. Qed.

Example store_ex_remove :
  fst (getDBSize (run_ops [Insert ("a", 1%Z); Insert ("b", 1%Z); Remove 0] fresh_trainer))
  = Return 1%N.
Proof. reflexivity. Qed.

Example store_ex_corrupt :
  decode "no separator" = Throw (runtime_error "Corrupted value in LevelDB").
Proof. reflexivity. Qed.

(** ** Writing a sentence and reading it back *)

(** C1, as stated, fails: inserting the sentence whose text is the bytes
    [a], NUL, [7] with count 5 and reading id 0 back returns [("a", 7)]. *)
Lemma insert_get_roundtrip_breaks_on_NUL :
  fst (getSentenceFromDB 0 (snd (addSentenceToDB (a_NUL_7, 5%Z) fresh_trainer)))
    = Return ("a", 7%Z)
  /\ fst (getSentenceFromDB 0 (snd (addSentenceToDB (a_NUL_7, 5%Z) fresh_trainer)))
    <> Return (a_NUL_7, 5%Z).
Proof. split; [reflexivity|discriminate]. Qed.

(** C1 (amended): for every sentence whose text has no NUL byte (and whose
    count is an [int64_t]), when the medium lets the write and the read
    through, [addSentenceToDB] returns normally and [getSentenceFromDB] with
    the id the insert used (the value of [current_index_] before it)
    returns a pair equal to [(text, count)]. *)
Theorem insert_get_roundtrip (s : Sentence) (t : TrainerInterface) :
  calls_go_through 2 t -> plain s ->
  fst (addSentenceToDB s t) = Return tt
  /\ fst (getSentenceFromDB (current_index_ t) (snd (addSentenceToDB s t)))
     = Return s.
Proof.
  intros Hq Hs.
  destruct (quiet_next _ _ Hq) as [H1 _].
  rewrite (addSentenceToDB_ok s t H1). split; [reflexivity|].
  cbn [snd].
  rewrite getSentenceFromDB_ok.
  - cbn [fst]. unfold record_at. cbn [db_].
    change (leveldb.table _) with
      (leveldb.table_put (to_string_size_t (current_index_ t)) (encode s)
         (leveldb.table (db_ t))).
    rewrite table_get_put_eq. now apply decode_encode_plain.
  - now apply (quiet_after_put (to_string_size_t (current_index_ t)) (encode s)).
Qed.

Lemma insert_get_roundtrip_witness :
  calls_go_through 2 fresh_trainer /\ plain ("hello world", 3%Z)
  /\ fst (getSentenceFromDB 0 (snd (addSentenceToDB ("hello world", 3%Z) fresh_trainer)))
     = Return ("hello world", 3%Z).
Proof.
  assert (Hq : calls_go_through 2 fresh_trainer) by reflexivity.
  assert (Hp : plain ("hello world", 3%Z))
    by (split; [reflexivity|unfold is_int64, INT64_MIN, INT64_MAX; simpl; lia]).
  split; [exact Hq|]. split; [exact Hp|].
  exact (proj2 (insert_get_roundtrip ("hello world", 3%Z) fresh_trainer Hq Hp)).
Defined.

(** C9, as stated, fails: for the text [a], NUL, [b] nothing is returned at
    all; [std::stoll] throws on the bytes behind the first NUL byte. *)
Lemma NUL_text_may_return_nothing :
  fst (getSentenceFromDB 0 (snd (addSentenceToDB (a_NUL_b, 5%Z) fresh_trainer)))
    = Throw (invalid_argument "stoll")
  /\ ~ (exists count,
         fst (getSentenceFromDB 0 (snd (addSentenceToDB (a_NUL_b, 5%Z) fresh_trainer)))
         = Return (before_NUL a_NUL_b, count)).
Proof. split; [reflexivity|]. intros [count H]. discriminate H. Qed.

(** C9 (amended): a record is the text, a NUL byte, then the decimal count,
    and is decoded by splitting at the first NUL byte. So, the medium
    letting the calls through, [getSentenceFromDB] after [addSentenceToDB]
    or [updateSentenceInDB] returns exactly the stored [(text, count)] when
    the text has no NUL byte; when it has one, the read either fails in
    [std::stoll] or returns as text only the prefix in front of the first
    NUL byte, the count being what [std::stoll] reads behind it. *)
Theorem record_is_split_at_first_NUL (index : N) (s : Sentence)
    (t : TrainerInterface) :
  calls_go_through 2 t -> is_int64 (snd s) ->
  let added := snd (addSentenceToDB s t) in
  let updated := snd (updateSentenceInDB index s t) in
  encode s = fst s ++ String NUL (to_string_int64 (snd s))
  /\ record_at (current_index_ t) added = Some (encode s)
  /\ record_at index updated = Some (encode s)
  /\ (forall value, decode value =
        if contains_NUL value then
          match stoll (after_NUL value) with
          | Throw e => Throw e
          | Return count => Return (before_NUL value, count)
          end
        else Throw (runtime_error "Corrupted value in LevelDB"))
  /\ (contains_NUL (fst s) = false ->
        fst (getSentenceFromDB (current_index_ t) added) = Return s
        /\ fst (getSentenceFromDB index updated) = Return s)
  /\ (contains_NUL (fst s) = true ->
        before_NUL (fst s) <> fst s
        /\ fst (getSentenceFromDB (current_index_ t) added) = decode (encode s)
        /\ fst (getSentenceFromDB index updated) = decode (encode s)
        /\ decode (encode s) =
           match stoll (join_NUL (after_NUL (fst s)) (to_string_int64 (snd s))) with
           | Throw e => Throw e
           | Return count' => Return (before_NUL (fst s), count')
           end).
Proof.
  intros Hq Hc added updated.
  destruct (quiet_next _ _ Hq) as [H1 _].
  assert (Ea : added = {| db_ := db_ (tick_put (to_string_size_t (current_index_ t)) (encode s) t);
                          current_index_ := size_t_incr (current_index_ t) |})
    by (unfold added; now rewrite addSentenceToDB_ok).
  assert (Eu : updated = tick_put (to_string_size_t index) (encode s) t)
    by (unfold updated; now rewrite updateSentenceInDB_ok).
  assert (Ra : record_at (current_index_ t) added = Some (encode s))
    by (rewrite Ea; apply table_get_put_eq).
  assert (Ru : record_at index updated = Some (encode s))
    by (rewrite Eu; apply table_get_put_eq).
  assert (Na : leveldb.next_event (db_ added) = None)
    by (rewrite Ea; now apply (quiet_after_put _ (encode s))).
  assert (Nu : leveldb.next_event (db_ updated) = None)
    by (rewrite Eu; now apply quiet_after_put).
  assert (Ga : fst (getSentenceFromDB (current_index_ t) added) = decode (encode s))
    by (rewrite (getSentenceFromDB_ok _ _ Na), Ra; reflexivity).
  assert (Gu : fst (getSentenceFromDB index updated) = decode (encode s))
    by (rewrite (getSentenceFromDB_ok _ _ Nu), Ru; reflexivity).
  split; [reflexivity|]. split; [exact Ra|]. split; [exact Ru|].
  split; [exact decode_split|]. split.
  - intros Hn. rewrite Ga, Gu.
    now rewrite decode_encode_plain by (split; assumption).
  - intros Hn. split; [now apply before_NUL_shorter|].
    split; [exact Ga|]. split; [exact Gu|].
    destruct s as [text count]. now apply decode_encode_NUL.
Qed.

Lemma record_is_split_at_first_NUL_witness :
  calls_go_through 2 fresh_trainer /\ is_int64 5
  /\ fst (getSentenceFromDB 3 (snd (updateSentenceInDB 3 (a_NUL_7, 5%Z) fresh_trainer)))
     = Return ("a", 7%Z).
Proof.
  assert (Hq : calls_go_through 2 fresh_trainer) by reflexivity.
  assert (Hc : is_int64 5) by (unfold is_int64, INT64_MIN, INT64_MAX; lia).
  split; [exact Hq|]. split; [exact Hc|].
  pose proof (record_is_split_at_first_NUL 3 (a_NUL_7, 5%Z) fresh_trainer Hq Hc)
    as (_ & _ & _ & _ & _ & HN).
  destruct (HN eq_refl) as (_ & _ & -> & _). reflexivity.
Defined.

(** ** When a read fails *)

(** C3, as stated, fails: after [updateSentenceInDB 0 ("a\0b", 5)] a record
    is stored under id 0 and its value has the separator, yet the read
    fails. *)
Lemma get_fails_on_stored_separated_record :
  ~ (throws (fst (getSentenceFromDB 0 store_a_NUL_b)) = true <->
       record_at 0 store_a_NUL_b = None
       \/ exists value,
            record_at 0 store_a_NUL_b = Some value /\ contains_NUL value = false).
Proof.
  intros [Hfail _].
  destruct (Hfail eq_refl) as [H|(value & H & Hv)].
  - discriminate H.
  - injection H as <-. discriminate Hv.
Qed.

(** C3 (amended): [getSentenceFromDB] fails if and only if the medium
    fails the read, or no record is stored under the id (both reported as
    [std::out_of_range]), or the stored value has no separator
    ([std::runtime_error]), or [std::stoll] rejects the bytes behind the
    first separator; in particular an id with no record yields the
    [std::out_of_range] error. *)
Theorem get_failure_causes (index : N) (t : TrainerInterface) :
  (throws (fst (getSentenceFromDB index t)) = true <->
     leveldb.next_event (db_ t) <> None
     \/ record_at index t = None
     \/ exists value, record_at index t = Some value
          /\ (contains_NUL value = false \/ throws (stoll (after_NUL value)) = true))
  /\ (record_at index t = None ->
        exists what, fst (getSentenceFromDB index t) = Throw (out_of_range what))
  /\ (leveldb.next_event (db_ t) <> None ->
        exists what, fst (getSentenceFromDB index t) = Throw (out_of_range what))
  /\ (forall value,
        leveldb.next_event (db_ t) = None -> record_at index t = Some value ->
        fst (getSentenceFromDB index t) =
        if contains_NUL value then
          match stoll (after_NUL value) with
          | Throw e => Throw e
          | Return count => Return (before_NUL value, count)
          end
        else Throw (runtime_error "Corrupted value in LevelDB")).
Proof.
  destruct (leveldb.next_event (db_ t)) as [f|] eqn:Hev.
  - rewrite (getSentenceFromDB_fail index t f Hev). cbn [fst].
    split; [|split; [|split]].
    + split; [intros _; now left|reflexivity].
    + intros _. eauto.
    + intros _. eauto.
    + intros value H. discriminate H.
  - rewrite (getSentenceFromDB_ok index t Hev). cbn [fst].
    destruct (record_at index t) as [value|] eqn:Hr.
    + rewrite decode_split. split; [|split; [|split]].
      * split.
        -- intros Hth. right. right. exists value. split; [reflexivity|].
           destruct (contains_NUL value); [right|now left].
           now destruct (stoll (after_NUL value)).
        -- intros [H|[H|(v & Hv & Hc)]]; [now elim H|discriminate H|].
           injection Hv as <-.
           destruct Hc as [->|Hc]; [reflexivity|].
           destruct (contains_NUL value); [|reflexivity].
           now destruct (stoll (after_NUL value)).
      * intros H. discriminate H.
      * intros H. now elim H.
      * intros v _ Hv. injection Hv as <-. reflexivity.
    + split; [|split; [|split]].
      * split; [intros _; right; now left|reflexivity].
      * intros _. eauto.
      * intros H. now elim H.
      * intros v _ H. discriminate H.
Qed.

(** ** Update *)

(** C7, as stated, fails: after updating id 0 with the sentence whose text
    is [a], NUL, [b], the read of id 0 does not return that sentence. *)
Lemma update_then_get_breaks_on_NUL :
  fst (updateSentenceInDB 0 (a_NUL_b, 5%Z) fresh_trainer) = Return tt
  /\ fst (getSentenceFromDB 0 (snd (updateSentenceInDB 0 (a_NUL_b, 5%Z) fresh_trainer)))
     <> Return (a_NUL_b, 5%Z).
Proof. split; [reflexivity|discriminate]. Qed.

(** C7 (amended): for every id and every sentence whose text has no NUL
    byte, the medium letting the calls through, [updateSentenceInDB]
    succeeds whether or not a record is stored under the id (there is no
    existence check), afterwards [getSentenceFromDB] of the id returns the
    new sentence, and every other id is mapped to exactly the same value as
    before. *)
Theorem update_is_upsert (index : N) (s : Sentence) (t : TrainerInterface) :
  calls_go_through 2 t -> plain s ->
  let t' := snd (updateSentenceInDB index s t) in
  fst (updateSentenceInDB index s t) = Return tt
  /\ current_index_ t' = current_index_ t
  /\ fst (getSentenceFromDB index t') = Return s
  /\ forall j, j <> index ->
       record_at j t' = record_at j t
       /\ fst (getSentenceFromDB j t') = fst (getSentenceFromDB j t).
Proof.
  intros Hq Hs t'.
  destruct (quiet_next _ _ Hq) as [H1 _].
  assert (E : t' = tick_put (to_string_size_t index) (encode s) t)
    by (unfold t'; now rewrite updateSentenceInDB_ok).
  assert (H2 : leveldb.next_event (db_ t') = None)
    by (rewrite E; now apply quiet_after_put).
  rewrite (updateSentenceInDB_ok index s t H1).
  split; [reflexivity|]. split; [now rewrite E|]. split.
  - rewrite (getSentenceFromDB_ok _ _ H2). cbn [fst].
    rewrite E, record_at_put_eq. now apply decode_encode_plain.
  - intros j Hj.
    assert (R : record_at j t' = record_at j t)
      by (rewrite E; apply record_at_put_ne; congruence).
    split; [exact R|].
    now rewrite (getSentenceFromDB_ok _ _ H2), (getSentenceFromDB_ok _ _ H1), R.
Qed.

Lemma update_is_upsert_witness :
  calls_go_through 2 fresh_trainer /\ plain ("a b", 2%Z)
  /\ fst (updateSentenceInDB 7 ("a b", 2%Z) fresh_trainer) = Return tt
  /\ fst (getSentenceFromDB 7 (snd (updateSentenceInDB 7 ("a b", 2%Z) fresh_trainer)))
     = Return ("a b", 2%Z).
Proof.
  assert (Hq : calls_go_through 2 fresh_trainer) by reflexivity.
  assert (Hp : plain ("a b", 2%Z))
    by (split; [reflexivity|unfold is_int64, INT64_MIN, INT64_MAX; simpl; lia]).
  split; [exact Hq|]. split; [exact Hp|].
  pose proof (update_is_upsert 7 ("a b", 2%Z) fresh_trainer Hq Hp) as (Ho & _ & Hg & _).
  split; [exact Ho|exact Hg].
Defined.

(** ** A failed insert *)

(** C10: when the write fails, [addSentenceToDB] throws before
    [++current_index_]: the counter and the records are as before, so the
    next insert that succeeds writes under the key the failed one would
    have used, and every insert after it behaves as if the failed call had
    only consumed the medium's failure. *)
Theorem failed_insert_keeps_counter (s : Sentence) (t : TrainerInterface)
    (f : leveldb.Fault) :
  leveldb.next_event (db_ t) = Some f ->
  let t1 := snd (addSentenceToDB s t) in
  fst (addSentenceToDB s t)
    = Throw (runtime_error ("Failed to write to LevelDB: "
                              ++ leveldb.ToString (leveldb.fault_status f)))
  /\ current_index_ t1 = current_index_ t
  /\ leveldb.table (db_ t1) = leveldb.table (db_ t)
  /\ (forall s2, leveldb.next_event (db_ t1) = None ->
        fst (addSentenceToDB s2 t1) = Return tt
        /\ leveldb.table (db_ (snd (addSentenceToDB s2 t1)))
           = leveldb.table_put (to_string_size_t (current_index_ t)) (encode s2)
               (leveldb.table (db_ t))
        /\ current_index_ (snd (addSentenceToDB s2 t1))
           = size_t_incr (current_index_ t))
  /\ (forall later, addSentences later t1 = addSentences later (tick t)).
Proof.
  intros Hf t1.
  assert (E : t1 = tick t) by (unfold t1; now rewrite (addSentenceToDB_fail s t f Hf)).
  rewrite (addSentenceToDB_fail s t f Hf).
  split; [reflexivity|]. split; [now rewrite E|]. split; [now rewrite E|].
  split; [|now rewrite E].
  intros s2 H2. rewrite (addSentenceToDB_ok s2 t1 H2). rewrite E.
  repeat split.
Qed.

Lemma failed_insert_keeps_counter_witness :
  leveldb.next_event (db_ failing_trainer) = Some disk_full
  /\ fst (addSentenceToDB ("a", 1%Z) failing_trainer)
     = Throw (runtime_error "Failed to write to LevelDB: IO error: disk full")
  /\ current_index_ (snd (addSentenceToDB ("a", 1%Z) failing_trainer)) = 0%N.
Proof.
  assert (Hf : leveldb.next_event (db_ failing_trainer) = Some disk_full) by reflexivity.
  split; [exact Hf|].
  pose proof (failed_insert_keeps_counter ("a", 1%Z) failing_trainer disk_full Hf)
    as (Ho & Hi & _).
  split; [exact Ho|exact Hi].
Defined.

(** ** Storage failures *)

(** C8, as stated, fails: a rejected write leaves [addSentenceToDB] by a
    thrown [std::runtime_error]; no value is returned to the caller. *)
Lemma write_failure_is_thrown_not_returned :
  fst (addSentenceToDB ("a", 1%Z) failing_trainer)
    = Throw (runtime_error "Failed to write to LevelDB: IO error: disk full")
  /\ ~ (exists result, fst (addSentenceToDB ("a", 1%Z) failing_trainer) = Return result).
Proof. split; [reflexivity|]. intros [result H]. discriminate H. Qed.

(** C8 (amended): for every failure of the medium in a store operation
    (insert, get, update, delete, scan, size) and in the constructor, the
    operation stops at once, leaving the records and [current_index_] as
    they were, and reports the failure by throwing a C++ exception that
    carries the status text: [std::runtime_error], and [std::out_of_range]
    for a read. A scan throws as well: the [std::runtime_error] of the
    iterator, unless decoding one of the delivered records threw first. *)
Theorem storage_failure_is_thrown (t : TrainerInterface) (f : leveldb.Fault) :
  leveldb.next_event (db_ t) = Some f ->
  let text := leveldb.ToString (leveldb.fault_status f) in
  (forall s, addSentenceToDB s t
             = (Throw (runtime_error ("Failed to write to LevelDB: " ++ text)), tick t))
  /\ (forall i, getSentenceFromDB i t
                = (Throw (out_of_range
                     ("Index out of range or failed to read from LevelDB: " ++ text)),
                   tick t))
  /\ (forall i s, updateSentenceInDB i s t
                  = (Throw (runtime_error ("Failed to update LevelDB: " ++ text)), tick t))
  /\ (forall i, removeSentenceFromDB i t
                = (Throw (runtime_error ("Failed to delete from LevelDB: " ++ text)),
                   tick t))
  /\ getDBSize t = (Throw (runtime_error ("Failed to iterate LevelDB: " ++ text)), tick t)
  /\ (exists e, snd (fst (loadSentencesFromDB t)) = Throw e
        /\ (snd (load_loop (take (leveldb.fault_reach f) (leveldb.table (db_ t))))
              = Return tt ->
            e = runtime_error ("Failed to iterate LevelDB: " ++ text)))
  /\ snd (loadSentencesFromDB t) = tick t
  /\ TrainerInterface_new (db_ t)
     = Throw (runtime_error ("Failed to open LevelDB: " ++ text))
  /\ leveldb.table (db_ (tick t)) = leveldb.table (db_ t)
  /\ current_index_ (tick t) = current_index_ t.
Proof.
  intros Hf text.
  split; [intros s; now apply addSentenceToDB_fail|].
  split; [intros i; now apply getSentenceFromDB_fail|].
  split; [intros i s; now apply updateSentenceInDB_fail|].
  split; [intros i; now apply removeSentenceFromDB_fail|].
  split; [unfold getDBSize, leveldb.NewIterator; now rewrite Hf|].
  split; [|split; [|split; [|split; reflexivity]]].
  - unfold loadSentencesFromDB, leveldb.NewIterator. rewrite Hf.
    cbn [leveldb.it_entries leveldb.it_status].
    destruct (load_loop _) as [out [[]|e]]; cbn; eauto.
    eexists. split; [reflexivity|]. intros H. discriminate H.
  - unfold loadSentencesFromDB, leveldb.NewIterator. rewrite Hf.
    cbn [leveldb.it_entries leveldb.it_status].
    now destruct (load_loop _) as [out [[]|e]].
  - unfold TrainerInterface_new, leveldb.Open. now rewrite Hf.
Qed.

Lemma storage_failure_is_thrown_witness :
  leveldb.next_event (db_ failing_trainer) = Some disk_full
  /\ getDBSize failing_trainer
     = (Throw (runtime_error "Failed to iterate LevelDB: IO error: disk full"),
        tick failing_trainer).
Proof.
  assert (Hf : leveldb.next_event (db_ failing_trainer) = Some disk_full) by reflexivity.
  split; [exact Hf|].
  pose proof (storage_failure_is_thrown failing_trainer disk_full Hf)
    as (_ & _ & _ & _ & Hsize & _).
  exact Hsize.
Defined.

(** ** Ids *)

Section Ids.
Import leveldb.

Lemma size_t_incr_small (i : N) : (i < SIZE_MAX)%N -> size_t_incr i = (i + 1)%N.
Proof.
  intros H. unfold size_t_incr. apply N.mod_small. lia.
Qed.

Lemma successes_Return {A} (a : A) (os : list (Outcome A)) :
  successes (Return a :: os) = S (successes os).
Proof. reflexivity. Qed.

Lemma successes_Throw {A} (e : exception) (os : list (Outcome A)) :
  successes (@Throw A e :: os) = successes os.
Proof. reflexivity. Qed.

(** The successes in front of a later success are more. *)
Lemma successes_take_lt {A} (j k : nat) (os : list (Outcome A)) (a : A) :
  j < k -> os !! j = Some (Return a) ->
  successes (take j os) < successes (take k os).
Proof.
  revert j k. induction os as [|o os IH]; intros j k Hjk Hj; [easy|].
  destruct k as [|k]; [lia|].
  destruct j as [|j].
  - simpl in Hj. injection Hj as ->. simpl take at 1.
    change (take (S k) (Return a :: os)) with (Return a :: take k os).
    rewrite successes_Return. unfold successes at 1. simpl. lia.
  - simpl in Hj. specialize (IH j k ltac:(lia) Hj).
    change (take (S j) (o :: os)) with (o :: take j os).
    change (take (S k) (o :: os)) with (o :: take k os).
    destruct o; rewrite ?successes_Return, ?successes_Throw; lia.
Qed.

Lemma addSentences_cons (s : Sentence) (rest : list Sentence) (t : TrainerInterface) :
  addSentences (s :: rest) t =
  (fst (addSentenceToDB s t) :: fst (addSentences rest (snd (addSentenceToDB s t))),
   snd (addSentences rest (snd (addSentenceToDB s t)))).
Proof.
  cbn [addSentences]. destruct (addSentenceToDB s t) as [o t1].
  cbn [fst snd]. now destruct (addSentences rest t1).
Qed.

(** The ids a run of inserts hands out, whatever the medium does. *)
Lemma addSentences_ids (sentences : list Sentence) :
  forall t,
  (current_index_ t + N.of_nat (length sentences) <= SIZE_MAX)%N ->
  let os := fst (addSentences sentences t) in
  let t' := snd (addSentences sentences t) in
  length os = length sentences
  /\ current_index_ t' = (current_index_ t + N.of_nat (successes os))%N
  /\ (forall j, (j < current_index_ t)%N -> record_at j t' = record_at j t)
  /\ (forall k s, sentences !! k = Some s -> os !! k = Some (Return tt) ->
        record_at (current_index_ t + N.of_nat (successes (take k os))) t'
        = Some (encode s)).
Proof.
  induction sentences as [|s rest IH]; intros t Hb.
  - simpl. repeat split; try easy. unfold successes. simpl. lia.
  - cbv zeta. rewrite addSentences_cons. cbn [fst snd].
    simpl length in Hb.
    destruct (next_event (db_ t)) as [f|] eqn:Hev.
    + rewrite (addSentenceToDB_fail s t f Hev). cbn [fst snd].
      destruct (IH (tick t)) as (Hl & Hi & Hfr & Hrec); [simpl; lia|].
      split; [simpl; now rewrite Hl|].
      split; [now rewrite successes_Throw|].
      split; [exact Hfr|].
      intros [|k] s' Hs Ho; [discriminate Ho|].
      change (take (S k) (?o :: ?os)) with (o :: take k os).
      rewrite successes_Throw. now apply Hrec.
    + rewrite (addSentenceToDB_ok s t Hev). cbn [fst snd].
      set (t1 := {| db_ := _; current_index_ := _ |}).
      assert (Hi1 : current_index_ t1 = (current_index_ t + 1)%N)
        by (apply size_t_incr_small; lia).
      assert (Hr1 : forall j, j <> current_index_ t -> record_at j t1 = record_at j t).
      { intros j Hj. apply table_get_put_ne.
        intros E. apply to_string_size_t_inj in E. congruence. }
      assert (Hw1 : record_at (current_index_ t) t1 = Some (encode s))
        by apply table_get_put_eq.
      destruct (IH t1) as (Hl & Hi & Hfr & Hrec); [rewrite Hi1; lia|].
      split; [simpl; now rewrite Hl|].
      split; [rewrite successes_Return, Hi, Hi1; lia|].
      split; [intros j Hj; rewrite Hfr by lia; apply Hr1; lia|].
      intros [|k] s' Hs Ho.
      * injection Hs as <-. simpl take. unfold successes at 1. simpl.
        rewrite N.add_0_r, Hfr by lia. exact Hw1.
      * change (take (S k) (?o :: ?os)) with (o :: take k os).
        rewrite successes_Return.
        specialize (Hrec k s' Hs Ho). rewrite Hi1 in Hrec.
        now replace (current_index_ t + N.of_nat (S (successes (take k (fst (addSentences rest t1))))))%N
          with (current_index_ t + 1 + N.of_nat (successes (take k (fst (addSentences rest t1)))))%N
          by lia.
Qed.

End Ids.

(** C5: the constructor starts the counter at 0, and every insert that
    succeeds uses the next id, one more than the previous successful
    insert, whatever text it carries: the k-th call, when it succeeds, is
    stored under the number of successful inserts before it, and two
    successful inserts never share a key, so no two inserts are merged into
    one record. (A run of at most [SIZE_MAX] inserts: [current_index_] is a
    [size_t].) *)
Theorem ids_are_sequential (disk : leveldb.DB) (t0 : TrainerInterface)
    (sentences : list Sentence) :
  TrainerInterface_new disk = Return t0 ->
  (N.of_nat (length sentences) <= SIZE_MAX)%N ->
  let os := fst (addSentences sentences t0) in
  let t := snd (addSentences sentences t0) in
  current_index_ t0 = 0%N
  /\ current_index_ t = N.of_nat (successes os)
  /\ (forall k s, sentences !! k = Some s -> os !! k = Some (Return tt) ->
        record_at (N.of_nat (successes (take k os))) t = Some (encode s))
  /\ (forall j k, j < k -> os !! j = Some (Return tt) -> os !! k = Some (Return tt) ->
        successes (take j os) < successes (take k os)
        /\ to_string_size_t (N.of_nat (successes (take j os)))
           <> to_string_size_t (N.of_nat (successes (take k os))))
  /\ (forall s t1, fst (addSentenceToDB s t1) = Return tt ->
        record_at (current_index_ t1) (snd (addSentenceToDB s t1)) = Some (encode s)
        /\ current_index_ (snd (addSentenceToDB s t1)) = size_t_incr (current_index_ t1)).
Proof.
  intros Hnew Hb os t.
  assert (H0 : current_index_ t0 = 0%N).
  { unfold TrainerInterface_new in Hnew.
    destruct (leveldb.Open disk) as [st db].
    destruct (negb (leveldb.ok st)); [discriminate Hnew|].
    now injection Hnew as <-. }
  destruct (addSentences_ids sentences t0) as (Hl & Hi & _ & Hrec);
    [rewrite H0; lia|].
  fold os in Hl, Hi, Hrec. fold t in Hi, Hrec. rewrite H0 in Hi, Hrec.
  split; [exact H0|]. split; [exact Hi|]. split; [exact Hrec|]. split.
  - intros j k Hjk Hj Hk. split.
    + exact (successes_take_lt j k os tt Hjk Hj).
    + intros E. apply to_string_size_t_inj in E.
      pose proof (successes_take_lt j k os tt Hjk Hj). lia.
  - intros s t1 Hok.
    destruct (leveldb.next_event (db_ t1)) as [f|] eqn:Hev.
    + rewrite (addSentenceToDB_fail s t1 f Hev) in Hok. discriminate Hok.
    + rewrite (addSentenceToDB_ok s t1 Hev). cbn [snd current_index_].
      split; [apply table_get_put_eq|reflexivity].
Qed.

Lemma ids_are_sequential_witness :
  TrainerInterface_new empty_disk = Return fresh_trainer
  /\ record_at 0 (snd (addSentences [("a", 1%Z); ("a", 1%Z)] fresh_trainer))
     = Some (encode ("a", 1%Z))
  /\ record_at 1 (snd (addSentences [("a", 1%Z); ("a", 1%Z)] fresh_trainer))
     = Some (encode ("a", 1%Z)).
Proof.
  assert (Hnew : TrainerInterface_new empty_disk = Return fresh_trainer) by reflexivity.
  assert (Hb : (N.of_nat (length [("a", 1%Z); ("a", 1%Z)]) <= SIZE_MAX)%N)
    by (unfold SIZE_MAX; simpl; lia).
  split; [exact Hnew|].
  pose proof (ids_are_sequential empty_disk fresh_trainer [("a", 1%Z); ("a", 1%Z)] Hnew Hb)
    as (_ & _ & Hrec & _).
  split.
  - exact (Hrec 0 ("a", 1%Z) eq_refl eq_refl).
  - exact (Hrec 1 ("a", 1%Z) eq_refl eq_refl).
Defined.

(** ** Counts *)

Section Counts.
Import leveldb.

Lemma counts_positive_put (k v : string) (tbl : Table) :
  counts_positive tbl ->
  (exists text count, decode v = Return (text, count) /\ (1 <= count)%Z) ->
  counts_positive (table_put k v tbl).
Proof.
  intros Ht Hv k' v' Hin.
  apply table_put_elem in Hin as [[= -> ->]|Hin]; [exact Hv|].
  now apply (Ht k').
Qed.

Lemma counts_positive_delete (k : string) (tbl : Table) :
  counts_positive tbl -> counts_positive (table_delete k tbl).
Proof.
  intros Ht k' v' Hin. apply (Ht k'). now apply table_delete_elem in Hin.
Qed.

Lemma run_op_counts (op : StoreOp) (t : TrainerInterface) :
  counts_positive (table (db_ t)) ->
  (forall s, op_sentence op = Some s -> plain s /\ (1 <= snd s)%Z) ->
  counts_positive (table (db_ (snd (run_op op t)))).
Proof.
  intros Ht Hop.
  assert (Hput : forall s k, op_sentence op = Some s ->
            counts_positive (table_put k (encode s) (table (db_ t)))).
  { intros s k Hs. destruct (Hop s Hs) as [Hp Hc].
    apply counts_positive_put; [exact Ht|].
    exists (fst s), (snd s). rewrite (decode_encode_plain s Hp).
    now destruct s. }
  destruct (next_event (db_ t)) as [f|] eqn:Hev; destruct op as [s|i s|i]; simpl.
  - now rewrite (addSentenceToDB_fail s t f Hev).
  - now rewrite (updateSentenceInDB_fail i s t f Hev).
  - now rewrite (removeSentenceFromDB_fail i t f Hev).
  - rewrite (addSentenceToDB_ok s t Hev). now apply Hput.
  - rewrite (updateSentenceInDB_ok i s t Hev). now apply Hput.
  - rewrite (removeSentenceFromDB_ok i t Hev). now apply counts_positive_delete.
Qed.

End Counts.

(** C6, as stated, fails: the store takes any count; after inserting
    [("a", 0)] the record under id 0 has count 0. *)
Lemma zero_count_is_stored :
  fst (getSentenceFromDB 0 store_zero_count) = Return ("a", 0%Z)
  /\ ~ counts_positive (leveldb.table (db_ store_zero_count)).
Proof.
  split; [reflexivity|].
  intros H. destruct (H "0" (encode ("a", 0%Z))) as (text & count & Hd & Hc).
  - apply list_elem_of_singleton. reflexivity.
  - change (decode (encode ("a", 0%Z))) with (@Return Sentence ("a", 0%Z)) in Hd.
    injection Hd as <- <-. lia.
Qed.

(** C6 (amended): the store does not check counts; after every sequence of
    inserts, updates and deletes in which each sentence handed to
    [addSentenceToDB] or [updateSentenceInDB] has a count of at least 1 (and
    a text without NUL byte), every record present has a count of at least
    1, provided that held of the records the store started with. *)
Theorem counts_stay_positive (ops : list StoreOp) (t : TrainerInterface) :
  counts_positive (leveldb.table (db_ t)) ->
  Forall (fun op => forall s, op_sentence op = Some s -> plain s /\ (1 <= snd s)%Z) ops ->
  counts_positive (leveldb.table (db_ (run_ops ops t))).
Proof.
  revert t. induction ops as [|op ops IH]; intros t Ht Hops; [exact Ht|].
  apply Forall_cons in Hops as [Hop Hops].
  unfold run_ops. cbn [fold_left]. apply IH; [|exact Hops].
  now apply run_op_counts.
Qed.

Lemma counts_stay_positive_witness :
  counts_positive (leveldb.table (db_
    (run_ops [Insert ("a b", 1%Z); Update 0 ("c", 2%Z); Remove 5%N] fresh_trainer)))
  /\ fst (getSentenceFromDB 0
       (run_ops [Insert ("a b", 1%Z); Update 0 ("c", 2%Z); Remove 5%N] fresh_trainer))
     = Return ("c", 2%Z).
Proof.
  split; [|reflexivity].
  apply (counts_stay_positive
           [Insert ("a b", 1%Z); Update 0 ("c", 2%Z); Remove 5%N] fresh_trainer).
  - intros k v H. inversion H.
  - assert (Hs : forall text count, contains_NUL text = false ->
                 (1 <= count <= INT64_MAX)%Z ->
                 forall s, Some (text, count) = Some s -> plain s /\ (1 <= snd s)%Z).
    { intros text count Hn Hc s [= <-]. unfold plain, is_int64, INT64_MIN. simpl.
      repeat split; [exact Hn|lia..]. }
    apply List.Forall_cons; [|apply List.Forall_cons; [|apply List.Forall_cons]];
      [| |intros s H; discriminate H|apply List.Forall_nil];
      cbn [op_sentence]; (apply Hs; [reflexivity|unfold INT64_MAX; lia]).
Defined.

(** ** Scans *)

Section Scans.
Import leveldb.






(** With a healthy medium every insert goes under a fresh key. *)
Lemma addSentences_healthy (sentences : list Sentence) :
  forall t,
  healthy t ->
  (current_index_ t + N.of_nat (length sentences) <= SIZE_MAX)%N ->
  (forall k, k ∈ map fst (table (db_ t)) ->
     exists j, (j < current_index_ t)%N /\ k = to_string_size_t j) ->
  let t' := snd (addSentences sentences t) in
  healthy t'
  /\ table (db_ t') ≡ₚ
       table (db_ t) ++ map as_record (numbered_from (current_index_ t) sentences)
  /\ (keys_ascending (table (db_ t)) -> keys_ascending (table (db_ t'))).
Proof.
  induction sentences as [|s rest IH]; intros t Hh Hb Hkeys.
  - simpl. rewrite app_nil_r. easy.
  - cbv zeta. rewrite addSentences_cons. cbn [snd].
    assert (Hev : next_event (db_ t) = None) by (unfold next_event; now rewrite Hh).
    rewrite (addSentenceToDB_ok s t Hev). cbn [snd].
    set (key := to_string_size_t (current_index_ t)).
    set (t1 := {| db_ := _; current_index_ := _ |}).
    simpl length in Hb.
    assert (Hi1 : current_index_ t1 = (current_index_ t + 1)%N)
      by (apply size_t_incr_small; lia).
    assert (Ht1 : table (db_ t1) = table_put key (encode s) (table (db_ t)))
      by reflexivity.
    assert (Hh1 : healthy t1) by (unfold healthy; simpl; now rewrite Hh).
    assert (Hfresh : table_get key (table (db_ t)) = None).
    { apply table_get_None. intros Hin.
      destruct (Hkeys _ Hin) as (j & Hj & E).
      apply to_string_size_t_inj in E. lia. }
    destruct (IH t1 Hh1) as (Hh' & Hperm & Hasc).
    + rewrite Hi1. lia.
    + intros k Hin. rewrite Ht1 in Hin.
      apply table_put_keys in Hin as [->|Hin].
      * exists (current_index_ t). split; [lia|reflexivity].
      * destruct (Hkeys _ Hin) as (j & Hj & E). exists j. split; [lia|exact E].
    + split; [exact Hh'|]. split.
      * rewrite Hperm, Ht1, (table_put_fresh _ _ _ Hfresh), Hi1.
        cbn [numbered_from map]. fold key.
        change (as_record (key, s)) with (key, encode s).
        now rewrite <- Permutation_middle.
      * intros Ha. apply Hasc. rewrite Ht1. now apply keys_ascending_put.
Qed.


End Scans.




(** ** [Sorted] *)

Section SortFacts.
Context {A : Type} (before : A -> A -> bool).
Hypothesis before_irrefl : forall a, before a a = false.
Hypothesis before_trans :
  forall a b c, before a b = true -> before b c = true -> before a c = true.
Hypothesis before_total : total before.

Lemma before_asym (a b : A) : before a b = true -> before b a = false.
Proof.
  intros Hab. destruct (before b a) eqn:Hba; [|reflexivity].
  pose proof (before_trans _ _ _ Hab Hba) as H.
  rewrite before_irrefl in H. discriminate H.
Qed.

(** What makes a strict total order a strict weak ordering. *)
Lemma before_neg_trans (a b c : A) :
  before a b = false -> before b c = false -> before a c = false.
Proof.
  intros Hab Hbc. destruct (before a c) eqn:Hac; [|reflexivity].
  destruct (before c b) eqn:Hcb.
  - pose proof (before_trans _ _ _ Hac Hcb) as H. congruence.
  - pose proof (before_total _ _ Hbc Hcb) as ->. congruence.
Qed.

Lemma unguarded_linear_insert_perm (val : A) (reversed : list A) :
  unguarded_linear_insert before val reversed ≡ₚ val :: reversed.
Proof.
  induction reversed as [|y l IH]; simpl; [reflexivity|].
  destruct (before val y); [|reflexivity].
  rewrite IH. apply Permutation_swap.
Qed.

Lemma insertion_step_perm (sorted : list A) (val : A) :
  insertion_step before sorted val ≡ₚ val :: sorted.
Proof.
  destruct sorted as [|first l]; [reflexivity|]. unfold insertion_step.
  destruct (before val first); [reflexivity|].
  rewrite <- Permutation_rev, unguarded_linear_insert_perm.
  now rewrite <- Permutation_rev.
Qed.

Lemma insertion_loop_perm (rest sorted : list A) :
  fold_left (insertion_step before) rest sorted ≡ₚ (sorted ++ rest)%list.
Proof.
  revert sorted. induction rest as [|x rest IH]; intros sorted; simpl.
  - now rewrite app_nil_r.
  - rewrite IH, insertion_step_perm. simpl. apply Permutation_middle.
Qed.

Lemma std_sort_perm (v : list A) : std_sort before v ≡ₚ v.
Proof.
  destruct v as [|x rest]; [reflexivity|]. unfold std_sort.
  now rewrite insertion_loop_perm.
Qed.

Lemma ranked_rev (v : list A) :
  ranked before v -> StronglySorted (fun a b => before a b = false) (rev v).
Proof.
  unfold ranked. induction 1 as [|x l Hl IH Hx]; simpl; [constructor|].
  apply StronglySorted_app_2; [|exact IH|repeat constructor].
  intros x1 x2 H1 H2. apply list_elem_of_singleton in H2 as ->.
  rewrite Forall_forall in Hx. apply Hx.
  apply list_elem_of_In. apply in_rev. now apply list_elem_of_In.
Qed.

Lemma rev_ranked (l : list A) :
  StronglySorted (fun a b => before a b = false) l -> ranked before (rev l).
Proof.
  unfold ranked. induction 1 as [|x l Hl IH Hx]; simpl; [constructor|].
  apply StronglySorted_app_2; [|exact IH|repeat constructor].
  intros x1 x2 H1 H2. apply list_elem_of_singleton in H2 as ->.
  rewrite Forall_forall in Hx. apply Hx.
  apply list_elem_of_In. apply in_rev. now apply list_elem_of_In.
Qed.

Lemma unguarded_linear_insert_sorted (val : A) (reversed : list A) :
  StronglySorted (fun a b => before a b = false) reversed ->
  StronglySorted (fun a b => before a b = false)
    (unguarded_linear_insert before val reversed).
Proof.
  induction 1 as [|y l Hl IH Hy]; simpl; [repeat constructor|].
  rewrite Forall_forall in Hy.
  destruct (before val y) eqn:E.
  - constructor; [exact IH|].
    rewrite unguarded_linear_insert_perm. constructor.
    + now apply before_asym.
    + now apply Forall_forall.
  - constructor; [constructor; [exact Hl|now apply Forall_forall]|].
    constructor; [exact E|].
    apply Forall_forall. intros w Hw.
    apply (before_neg_trans _ y); [exact E|now apply Hy].
Qed.

Lemma insertion_step_ranked (sorted : list A) (val : A) :
  ranked before sorted -> ranked before (insertion_step before sorted val).
Proof.
  intros Hs. destruct sorted as [|first l]; [repeat constructor|].
  unfold insertion_step. destruct (before val first) eqn:E.
  - pose proof Hs as Hs'. unfold ranked in Hs'.
    apply StronglySorted_inv in Hs' as [_ Hfirst].
    rewrite Forall_forall in Hfirst.
    constructor; [exact Hs|]. constructor; [now apply before_asym|].
    apply Forall_forall. intros w Hw.
    destruct (before w val) eqn:Ew; [|reflexivity].
    pose proof (before_trans _ _ _ Ew E) as H.
    rewrite (Hfirst w Hw) in H. discriminate H.
  - apply rev_ranked, unguarded_linear_insert_sorted. now apply ranked_rev.
Qed.

Lemma std_sort_ranked (v : list A) : ranked before (std_sort before v).
Proof.
  destruct v as [|x rest]; [constructor|]. unfold std_sort.
  assert (H : ranked before [x]) by repeat constructor.
  revert H. generalize [x]. induction rest as [|y rest IH]; intros sorted Hs.
  - exact Hs.
  - simpl. apply IH. now apply insertion_step_ranked.
Qed.

Lemma ranked_lookup (v : list A) (i j : nat) (a b : A) :
  ranked before v -> i < j -> v !! i = Some a -> v !! j = Some b -> before b a = false.
Proof.
  unfold ranked. intros Hv. revert i j.
  induction Hv as [|x v Hv IH Hall]; intros i j Hij Hi Hj; [easy|].
  destruct j as [|j]; [lia|]. simpl in Hj.
  destruct i as [|i]; simpl in Hi.
  - injection Hi as ->. rewrite Forall_forall in Hall.
    apply Hall. now apply list_elem_of_lookup_2 in Hj.
  - apply (IH i j); [lia|assumption..].
Qed.

(** On a total order the ranked permutation is unique: what [std::sort]
    returns does not depend on the algorithm it runs. *)
Lemma ranked_perm_unique (v w : list A) :
  ranked before v -> ranked before w -> v ≡ₚ w -> v = w.
Proof.
  intros Hv. revert w.
  induction Hv as [|x v Hv IH Hx]; intros w Hw Hperm.
  - apply Permutation_nil in Hperm. now subst w.
  - destruct w as [|y w];
      [symmetry in Hperm; now apply Permutation_nil_cons in Hperm|].
    apply StronglySorted_inv in Hw as [Hw Hy].
    rewrite Forall_forall in Hx, Hy.
    assert (E : x = y).
    { assert (Hxw : x ∈ y :: w) by (rewrite <- Hperm; apply list_elem_of_here).
      assert (Hyv : y ∈ x :: v) by (rewrite Hperm; apply list_elem_of_here).
      apply elem_of_cons in Hxw as [E|Hxw]; [exact E|].
      apply elem_of_cons in Hyv as [E|Hyv]; [now symmetry|].
      apply before_total; [now apply Hy|now apply Hx]. }
    subst y. f_equal. apply IH; [exact Hw|].
    now apply Permutation_cons_inv in Hperm.
Qed.

Lemma std_sort_unique (v w : list A) :
  ranked before w -> w ≡ₚ v -> w = std_sort before v.
Proof.
  intros Hw Hperm.
  apply ranked_perm_unique; [exact Hw|apply std_sort_ranked|].
  now rewrite std_sort_perm.
Qed.

End SortFacts.

Section RankingFacts.
Context {K V : Type}.
Variable ltK : K -> K -> bool.
Variable gtV : V -> V -> bool.
Variable eqV : V -> V -> bool.
Hypothesis ltK_irrefl : forall a, ltK a a = false.
Hypothesis ltK_trans :
  forall a b c, ltK a b = true -> ltK b c = true -> ltK a c = true.
Hypothesis ltK_total : total ltK.
Hypothesis gtV_irrefl : forall a, gtV a a = false.
Hypothesis gtV_trans :
  forall a b c, gtV a b = true -> gtV b c = true -> gtV a c = true.
Hypothesis gtV_total : total gtV.
Hypothesis eqV_eq : forall a b, eqV a b = true <-> a = b.

Lemma comp_irrefl (p : K * V) : comp ltK gtV eqV p p = false.
Proof.
  unfold comp. now rewrite gtV_irrefl, ltK_irrefl, andb_false_r.
Qed.

Lemma comp_trans (p q r : K * V) :
  comp ltK gtV eqV p q = true -> comp ltK gtV eqV q r = true ->
  comp ltK gtV eqV p r = true.
Proof.
  unfold comp.
  rewrite !orb_true_iff, !andb_true_iff, !eqV_eq.
  intros [Hpq|[Epq Hpq]] [Hqr|[Eqr Hqr]].
  - left. now apply (gtV_trans _ (snd q)).
  - left. now rewrite <- Eqr.
  - left. now rewrite Epq.
  - right. split; [congruence|]. now apply (ltK_trans _ (fst q)).
Qed.

Lemma comp_total : total (comp ltK gtV eqV).
Proof.
  intros [k1 v1] [k2 v2]. unfold comp. simpl.
  rewrite !orb_false_iff. intros [Hg1 Hl1] [Hg2 Hl2].
  pose proof (gtV_total _ _ Hg1 Hg2) as ->.
  assert (Hv : eqV v2 v2 = true) by now apply eqV_eq.
  rewrite Hv in Hl1, Hl2. simpl in Hl1, Hl2.
  now rewrite (ltK_total _ _ Hl1 Hl2).
Qed.

End RankingFacts.

Section OrdersOnNumbers.

Lemma N_ltb_irrefl (a : N) : N.ltb a a = false.
Proof. apply N.ltb_irrefl. Qed.

Lemma N_ltb_trans (a b c : N) : N.ltb a b = true -> N.ltb b c = true -> N.ltb a c = true.
Proof. rewrite !N.ltb_lt. lia. Qed.

Lemma N_ltb_total : total N.ltb.
Proof. intros a b. rewrite !N.ltb_ge. lia. Qed.

Lemma Z_gtb_irrefl (a : Z) : Z.gtb a a = false.
Proof. rewrite Z.gtb_ltb. apply Z.ltb_irrefl. Qed.

Lemma Z_gtb_trans (a b c : Z) : Z.gtb a b = true -> Z.gtb b c = true -> Z.gtb a c = true.
Proof. rewrite !Z.gtb_ltb, !Z.ltb_lt. lia. Qed.

Lemma Z_gtb_total : total Z.gtb.
Proof. intros a b. rewrite !Z.gtb_ltb, !Z.ltb_ge. lia. Qed.

End OrdersOnNumbers.

(** C2, as stated, fails: a list of pairs is not ranked when a score is
    NaN. For the scores 3, 1, NaN, 2 no comparison moves an element, the
    list comes back as it was, and the value 1 stands in front of the
    greater value 2. *)
Lemma Sorted_does_not_rank_NaN_scores :
  Sorted String.ltb score_gt score_eq pieces_with_NaN = pieces_with_NaN
  /\ ~ (forall i j p q, i < j ->
          Sorted String.ltb score_gt score_eq pieces_with_NaN !! i = Some p ->
          Sorted String.ltb score_gt score_eq pieces_with_NaN !! j = Some q ->
          score_gt (snd q) (snd p) = false).
Proof.
  split; [reflexivity|].
  intros H.
  specialize (H 1 3 ("x", Num 1) ("z", Num 2) ltac:(lia) eq_refl eq_refl).
  discriminate H.
Qed.

(** C2 (amended): for every list of (key, value) pairs whose keys and
    values are strictly and totally ordered by [<] and [>] (so: no NaN
    among the values), [Sorted] returns a permutation of the input whose
    values are non-increasing (of two pairs the earlier has the greater
    or the same value, never the smaller), and whenever two pairs have
    equal values, the pair with the smaller key appears before the
    other. *)
Theorem Sorted_ranks {K V : Type} (ltK : K -> K -> bool) (gtV eqV : V -> V -> bool)
    (m : list (K * V)) :
  (forall a, ltK a a = false) ->
  (forall a b c, ltK a b = true -> ltK b c = true -> ltK a c = true) ->
  total ltK ->
  (forall a, gtV a a = false) ->
  (forall a b c, gtV a b = true -> gtV b c = true -> gtV a c = true) ->
  total gtV ->
  (forall a b, eqV a b = true <-> a = b) ->
  Sorted ltK gtV eqV m ≡ₚ m
  /\ (forall i j p q, i < j ->
        Sorted ltK gtV eqV m !! i = Some p -> Sorted ltK gtV eqV m !! j = Some q ->
        gtV (snd q) (snd p) = false
        /\ (gtV (snd p) (snd q) = true \/ snd p = snd q))
  /\ (forall i j p q,
        Sorted ltK gtV eqV m !! i = Some p -> Sorted ltK gtV eqV m !! j = Some q ->
        snd p = snd q -> ltK (fst p) (fst q) = true -> i < j).
Proof.
  intros Hki Hkt Hkl Hvi Hvt Hvl Heq.
  pose proof (std_sort_ranked (comp ltK gtV eqV)
                (comp_irrefl ltK gtV eqV Hki Hvi)
                (comp_trans ltK gtV eqV Hkt Hvt Heq)
                (comp_total ltK gtV eqV Hkl Hvl Heq) m) as Hr.
  fold (Sorted ltK gtV eqV m) in Hr.
  split; [apply std_sort_perm|]. split.
  - intros i j p q Hij Hp Hq.
    pose proof (ranked_lookup _ _ i j p q Hr Hij Hp Hq) as H.
    unfold comp in H. apply orb_false_iff in H as [H _].
    split; [exact H|].
    destruct (gtV (snd p) (snd q)) eqn:E; [now left|right].
    now apply Hvl.
  - intros i j p q Hp Hq Hv Hk.
    assert (Hc : comp ltK gtV eqV p q = true).
    { unfold comp. apply orb_true_iff. right.
      apply andb_true_iff. split; [now apply Heq|exact Hk]. }
    destruct (Nat.lt_trichotomy i j) as [Hlt|[->|Hgt]]; [exact Hlt|..].
    + rewrite Hp in Hq. injection Hq as ->. now rewrite Hki in Hk.
    + pose proof (ranked_lookup _ _ j i q p Hr Hgt Hq Hp) as H. congruence.
Qed.

Lemma Sorted_ranks_witness :
  Sorted String.ltb Z.gtb Z.eqb [("b", 2%Z); ("c", 5%Z); ("a", 2%Z)]
    = [("c", 5%Z); ("a", 2%Z); ("b", 2%Z)]
  /\ Sorted String.ltb Z.gtb Z.eqb [("b", 2%Z); ("c", 5%Z); ("a", 2%Z)]
     ≡ₚ [("b", 2%Z); ("c", 5%Z); ("a", 2%Z)].
Proof.
  split; [reflexivity|].
  apply (Sorted_ranks String.ltb Z.gtb Z.eqb [("b", 2%Z); ("c", 5%Z); ("a", 2%Z)]).
  - exact string_ltb_irrefl.
  - exact string_ltb_trans.
  - exact string_ltb_total.
  - exact Z_gtb_irrefl.
  - exact Z_gtb_trans.
  - exact Z_gtb_total.
  - exact Z.eqb_eq.
Defined.

(** [std::sort] on sample inputs. *)
Example std_sort_ex1 :
  std_sort Z.gtb [3; 1; 4; 1; 5; 9; 2; 6]%Z = [9; 6; 5; 4; 3; 2; 1; 1]%Z.
Proof. reflexivity. Qed.

Example std_sort_ex2 :
  std_sort score_gt [Num 3; Num 1; NaN; Num 2] = [Num 3; Num 1; NaN; Num 2].
Proof. reflexivity. Qed.

(** * Further properties of the store *)

(** ** More on the table *)

Section MoreTableFacts.
Import leveldb.

Lemma table_delete_absent (k : string) (tbl : Table) :
  table_get k tbl = None -> table_delete k tbl = tbl.
Proof.
  induction tbl as [|[k0 v0] tbl IH]; simpl; [easy|].
  destruct (String.eqb k k0); [easy|]. intros Hn. now rewrite IH.
Qed.

Lemma table_put_put (k v1 v2 : string) (tbl : Table) :
  table_put k v2 (table_put k v1 tbl) = table_put k v2 tbl.
Proof.
  induction tbl as [|[k0 v0] tbl IH]; simpl.
  - now rewrite string_compare_refl.
  - destruct (String.compare k k0) eqn:E; simpl.
    + now rewrite string_compare_refl.
    + now rewrite string_compare_refl.
    + now rewrite E, IH.
Qed.

Lemma keys_ascending_cons (k v : string) (tbl : Table) :
  keys_ascending ((k, v) :: tbl) ->
  keys_ascending tbl /\ forall x, x ∈ map fst tbl -> String.ltb k x = true.
Proof.
  unfold keys_ascending. simpl. intros Hs.
  apply StronglySorted_inv in Hs as [Hs Hall].
  split; [exact Hs|]. now rewrite Forall_forall in Hall.
Qed.

(** Below the first key of an ascending table there is no record. *)
Lemma table_get_below (k k0 v0 : string) (tbl : Table) :
  keys_ascending ((k0, v0) :: tbl) -> String.compare k k0 = Lt ->
  table_get k ((k0, v0) :: tbl) = None.
Proof.
  intros Hs Hlt. apply table_get_None. simpl.
  apply keys_ascending_cons in Hs as [_ Hall].
  assert (Hk : String.ltb k k0 = true) by (unfold String.ltb; now rewrite Hlt).
  rewrite not_elem_of_cons. split.
  - intros ->. now rewrite string_ltb_irrefl in Hk.
  - intros Hin. specialize (Hall k Hin).
    pose proof (string_ltb_trans _ _ _ Hk Hall) as Hkk.
    now rewrite string_ltb_irrefl in Hkk.
Qed.

Lemma table_put_length (k v : string) (tbl : Table) :
  keys_ascending tbl ->
  length (table_put k v tbl) =
  match table_get k tbl with
  | Some _ => length tbl
  | None => S (length tbl)
  end.
Proof.
  induction tbl as [|[k0 v0] tbl IH]; intros Hs; [reflexivity|].
  cbn [table_put].
  destruct (String.compare k k0) eqn:E.
  - apply String.compare_eq_iff in E. subst k0. simpl.
    now rewrite String.eqb_refl.
  - now rewrite (table_get_below k k0 v0 tbl Hs E).
  - simpl. destruct (String.eqb_spec k k0) as [->|_].
    + now rewrite string_compare_refl in E.
    + rewrite IH; [|now apply keys_ascending_cons in Hs].
      now destruct (table_get k tbl).
Qed.

(** In an ascending table a record is found under its key. *)
Lemma table_get_elem (k v : string) (tbl : Table) :
  keys_ascending tbl -> (k, v) ∈ tbl -> table_get k tbl = Some v.
Proof.
  induction tbl as [|[k0 v0] tbl IH]; intros Hs Hin; [inversion Hin|].
  apply keys_ascending_cons in Hs as [Hs Hall].
  apply elem_of_cons in Hin as [[= -> ->]|Hin]; simpl.
  - now rewrite String.eqb_refl.
  - destruct (String.eqb_spec k k0) as [->|_]; [|now apply IH].
    assert (Hk : k0 ∈ map fst tbl)
      by (apply list_elem_of_fmap; now exists (k0, v)).
    specialize (Hall k0 Hk). now rewrite string_ltb_irrefl in Hall.
Qed.

Lemma table_get_Some_elem (k v : string) (tbl : Table) :
  table_get k tbl = Some v -> (k, v) ∈ tbl.
Proof.
  induction tbl as [|[k0 v0] tbl IH]; simpl; [easy|].
  destruct (String.eqb_spec k k0) as [->|_].
  - intros [= ->]. apply list_elem_of_here.
  - intros Hg. apply list_elem_of_further. now apply IH.
Qed.

End MoreTableFacts.

(** ** Removing *)

(** X1: a successful [removeSentenceFromDB] leaves no record under the id
    (the next read of it throws the not-found [std::out_of_range]), keeps
    every other id's record and does not touch [current_index_]. *)
Theorem remove_then_get (index : N) (t : TrainerInterface) :
  calls_go_through 2 t ->
  let t' := snd (removeSentenceFromDB index t) in
  fst (removeSentenceFromDB index t) = Return tt
  /\ current_index_ t' = current_index_ t
  /\ fst (getSentenceFromDB index t')
     = Throw (out_of_range "Index out of range or failed to read from LevelDB: NotFound: ")
  /\ forall j, j <> index -> record_at j t' = record_at j t.
Proof.
  intros Hq t'.
  destruct (quiet_next _ _ Hq) as [H1 Hq1].
  assert (E : t' = set_db t (leveldb.advance
                (leveldb.table_delete (to_string_size_t index) (leveldb.table (db_ t)))
                (db_ t)))
    by (unfold t'; now rewrite removeSentenceFromDB_ok).
  assert (H2 : leveldb.next_event (db_ t') = None)
    by (rewrite E; now apply (quiet_next 0) in Hq1).
  rewrite (removeSentenceFromDB_ok index t H1).
  split; [reflexivity|]. split; [now rewrite E|]. split.
  - rewrite (getSentenceFromDB_ok _ _ H2). cbn [fst].
    assert (R : record_at index t' = None)
      by (rewrite E; apply table_get_delete_eq).
    now rewrite R.
  - intros j Hj. rewrite E. apply table_get_delete_ne.
    intros Ek. apply to_string_size_t_inj in Ek. congruence.
Qed.

Lemma remove_then_get_witness :
  calls_go_through 2 (snd (addSentenceToDB ("a", 1%Z) fresh_trainer))
  /\ fst (getSentenceFromDB 0
       (snd (removeSentenceFromDB 0 (snd (addSentenceToDB ("a", 1%Z) fresh_trainer)))))
     = Throw (out_of_range "Index out of range or failed to read from LevelDB: NotFound: ").
Proof.
  assert (Hq : calls_go_through 2 (snd (addSentenceToDB ("a", 1%Z) fresh_trainer)))
    by reflexivity.
  split; [exact Hq|].
  pose proof (remove_then_get 0 _ Hq) as (_ & _ & Hg & _). exact Hg.
Defined.

(** X2: removing an id under which nothing is stored is no error: the call
    returns normally and the store is exactly as before. *)
Theorem remove_absent_is_noop (index : N) (t : TrainerInterface) :
  leveldb.next_event (db_ t) = None -> record_at index t = None ->
  removeSentenceFromDB index t = (Return tt, tick t).
Proof.
  intros Hev Hr. rewrite (removeSentenceFromDB_ok index t Hev).
  unfold record_at in Hr. now rewrite (table_delete_absent _ _ Hr).
Qed.

Lemma remove_absent_is_noop_witness :
  leveldb.next_event (db_ fresh_trainer) = None /\ record_at 4 fresh_trainer = None
  /\ removeSentenceFromDB 4 fresh_trainer = (Return tt, tick fresh_trainer).
Proof.
  split; [reflexivity|]. split; [reflexivity|].
  exact (remove_absent_is_noop 4 fresh_trainer eq_refl eq_refl).
Defined.

(** ** Updating *)

(** X3: the last update wins: two updates of the same id leave the store
    as the second one alone would (so repeating an update changes
    nothing). *)
Theorem update_last_write_wins (index : N) (s1 s2 : Sentence) (t : TrainerInterface) :
  calls_go_through 2 t ->
  snd (updateSentenceInDB index s2 (snd (updateSentenceInDB index s1 t)))
  = snd (updateSentenceInDB index s2 (tick t)).
Proof.
  intros Hq.
  destruct (quiet_next _ _ Hq) as [H1 Hq1].
  assert (H2 : leveldb.next_event (db_ (tick t)) = None)
    by now apply (quiet_next 0) in Hq1.
  rewrite (updateSentenceInDB_ok index s1 t H1). cbn [snd].
  rewrite (updateSentenceInDB_ok index s2 (tick t) H2).
  rewrite updateSentenceInDB_ok
    by now apply (quiet_after_put (to_string_size_t index) (encode s1)).
  cbn [snd]. unfold tick_put, tick, set_db, leveldb.advance. cbn.
  now rewrite table_put_put.
Qed.

Lemma update_last_write_wins_witness :
  calls_go_through 2 fresh_trainer
  /\ snd (updateSentenceInDB 3 ("b", 2%Z) (snd (updateSentenceInDB 3 ("a", 1%Z) fresh_trainer)))
     = snd (updateSentenceInDB 3 ("b", 2%Z) (tick fresh_trainer)).
Proof.
  split; [reflexivity|].
  exact (update_last_write_wins 3 ("a", 1%Z) ("b", 2%Z) fresh_trainer eq_refl).
Defined.

(** ** More on byte strings *)

Section MoreStringFacts.

Lemma append_String (c : ascii) (s r : string) :
  String c s ++ r = String c (s ++ r).
Proof. reflexivity. Qed.

Lemma string_app_assoc (a b c : string) : (a ++ b) ++ c = a ++ (b ++ c).
Proof.
  induction a as [|x a IH]; [reflexivity|].
  rewrite !append_String. now rewrite IH.
Qed.

Lemma count_LF_app (s r : string) : count_LF (s ++ r) = count_LF s + count_LF r.
Proof.
  induction s as [|c s IH]; [reflexivity|].
  rewrite append_String. cbn [count_LF]. rewrite IH. lia.
Qed.

Lemma count_LF_uint (d : uint) : count_LF (NilEmpty.string_of_uint d) = 0.
Proof. induction d; simpl; auto. Qed.

(** A rendered count has no line feed. *)
Lemma count_LF_to_string_int64 (z : Z) : count_LF (to_string_int64 z) = 0.
Proof.
  unfold to_string_int64.
  assert (H : forall d, count_LF (NilZero.string_of_uint d) = 0)
    by (intros [| | | | | | | | | |]; try reflexivity; apply (count_LF_uint (_ _))).
  destruct (Z.to_int z) as [d|d]; cbn [NilZero.string_of_int count_LF];
    [apply H|]. now rewrite H.
Qed.

Lemma count_LF_print_record (r : Sentence) :
  count_LF (print_record r) = S (count_LF (fst r)).
Proof.
  unfold print_record.
  rewrite !count_LF_app, count_LF_to_string_int64.
  change (count_LF "Sentence: ") with 0.
  change (count_LF ", Count: ") with 0.
  change (count_LF (String "010" "")) with 1. lia.
Qed.

End MoreStringFacts.

(** ** Size *)

Section Size.
Import leveldb.

Lemma count_loop {A} (l : list A) (c0 : N) :
  fold_left (fun count _ => size_t_incr count) l c0
  = match l with
    | [] => c0
    | _ => ((c0 + N.of_nat (length l)) mod (SIZE_MAX + 1))%N
    end.
Proof.
  revert c0. induction l as [|x l IH]; intros c0; [reflexivity|].
  cbn [fold_left]. rewrite IH. unfold size_t_incr.
  destruct l as [|y l].
  - f_equal; simpl; lia.
  - rewrite N.Div0.add_mod_idemp_l. f_equal; simpl length; lia.
Qed.

Lemma count_loop_0 {A} (l : list A) :
  fold_left (fun count _ => size_t_incr count) l 0%N
  = (N.of_nat (length l) mod (SIZE_MAX + 1))%N.
Proof.
  rewrite count_loop. destruct l; [reflexivity|]. now rewrite N.add_0_l.
Qed.

Lemma getDBSize_ok (t : TrainerInterface) :
  next_event (db_ t) = None ->
  getDBSize t
  = (Return (N.of_nat (length (table (db_ t))) mod (SIZE_MAX + 1))%N, tick t).
Proof.
  intros Hev. unfold getDBSize, NewIterator. rewrite Hev.
  cbn [it_entries it_status ok negb]. now rewrite count_loop_0.
Qed.

Lemma table_delete_length (k : string) (tbl : Table) :
  keys_ascending tbl ->
  length (table_delete k tbl) =
  match table_get k tbl with
  | Some _ => pred (length tbl)
  | None => length tbl
  end.
Proof.
  induction tbl as [|[k0 v0] tbl IH]; intros Hs; [reflexivity|].
  pose proof (keys_ascending_cons _ _ _ Hs) as [Hs' Hall].
  simpl. destruct (String.eqb_spec k k0) as [->|Hne].
  - rewrite table_delete_absent; [reflexivity|].
    apply table_get_None. intros Hin.
    specialize (Hall _ Hin). now rewrite string_ltb_irrefl in Hall.
  - simpl. rewrite (IH Hs').
    destruct (table_get k tbl) eqn:Hg; [|reflexivity].
    apply table_get_Some_elem in Hg. destruct tbl; [inversion Hg|reflexivity].
Qed.

Lemma load_loop_length (tbl : Table) :
  snd (load_loop tbl) = Return tt -> length (fst (load_loop tbl)) = length tbl.
Proof.
  induction tbl as [|[k v] tbl IH]; [reflexivity|].
  simpl. destruct (decode v) as [r|e]; [|discriminate].
  destruct (load_loop tbl) as [out o]. simpl in *.
  intros Ho. now rewrite IH.
Qed.

(** The line feeds a complete loop writes: one per record, and those of
    the texts. *)
Lemma load_loop_LF (tbl : Table) :
  snd (load_loop tbl) = Return tt ->
  count_LF (stdout_bytes (fst (load_loop tbl)))
  = length tbl + list_sum (map (fun r => count_LF (before_NUL (snd r))) tbl).
Proof.
  induction tbl as [|[k v] tbl IH]; [reflexivity|].
  cbn [load_loop]. rewrite decode_split.
  destruct (contains_NUL v); [|discriminate].
  destruct (stoll (after_NUL v)) as [count|e]; [|discriminate].
  destruct (load_loop tbl) as [out o]. cbn [fst snd] in *.
  intros Ho. specialize (IH Ho).
  cbn [stdout_bytes fold_right]. fold (stdout_bytes out).
  rewrite count_LF_app, count_LF_print_record, IH.
  unfold list_sum. cbn [fst snd map fold_right length]. lia.
Qed.

End Size.

(** X4: after any number of inserts into an empty store (the medium letting
    them through), [getDBSize] returns the number of inserts, whether or
    not texts repeat. *)
Theorem size_after_inserts (sentences : list Sentence) :
  (N.of_nat (length sentences) <= SIZE_MAX)%N ->
  fst (getDBSize (snd (addSentences sentences fresh_trainer)))
  = Return (N.of_nat (length sentences)).
Proof.
  intros Hb.
  destruct (addSentences_healthy sentences fresh_trainer) as (Hh & Hperm & Hasc);
    [reflexivity|simpl; lia|intros k Hk; inversion Hk|].
  clear Hasc. simpl app in Hperm.
  rewrite getDBSize_ok by (unfold leveldb.next_event; now rewrite Hh).
  cbn [fst]. rewrite Hperm, length_map.
  assert (Hlen : forall i, length (numbered_from i sentences) = length sentences).
  { clear. induction sentences as [|s rest IH]; intros i; simpl; [reflexivity|].
    now rewrite IH. }
  rewrite Hlen, N.mod_small; [reflexivity|lia].
Qed.

Lemma size_after_inserts_witness :
  fst (getDBSize (snd (addSentences [("a", 1%Z); ("a", 1%Z); ("a", 1%Z)] fresh_trainer)))
  = Return 3%N.
Proof.
  apply (size_after_inserts [("a", 1%Z); ("a", 1%Z); ("a", 1%Z)]).
  unfold SIZE_MAX. simpl. lia.
Defined.

(** X5: how the operations move the size of a store whose keys are in
    order: an update of a stored id keeps the number of records, an update
    of an id with no record adds one (upsert), a removal of a stored id
    takes one away, a removal of an absent id none; [getDBSize] returns
    that number modulo [2^64]. *)
Theorem size_accounting (index : N) (s : Sentence) (t : TrainerInterface) :
  keys_ascending (leveldb.table (db_ t)) -> calls_go_through 2 t ->
  let n := length (leveldb.table (db_ t)) in
  let stored := match record_at index t with Some _ => true | None => false end in
  length (leveldb.table (db_ (snd (updateSentenceInDB index s t))))
    = (if stored then n else S n)
  /\ length (leveldb.table (db_ (snd (removeSentenceFromDB index t))))
     = (if stored then pred n else n)
  /\ fst (getDBSize (snd (updateSentenceInDB index s t)))
     = Return (N.of_nat (if stored then n else S n) mod (SIZE_MAX + 1))%N
  /\ fst (getDBSize (snd (removeSentenceFromDB index t)))
     = Return (N.of_nat (if stored then pred n else n) mod (SIZE_MAX + 1))%N.
Proof.
  intros Hs Hq n stored.
  destruct (quiet_next _ _ Hq) as [H1 Hq1].
  apply (quiet_next 0) in Hq1 as [H2 _].
  rewrite (updateSentenceInDB_ok index s t H1), (removeSentenceFromDB_ok index t H1).
  cbn [snd].
  assert (Lu : length (leveldb.table (db_ (tick_put (to_string_size_t index) (encode s) t)))
               = if stored then n else S n).
  { cbn. rewrite (table_put_length _ _ _ Hs). unfold stored, record_at, n.
    now destruct (leveldb.table_get _ _). }
  assert (Lr : length (leveldb.table_delete (to_string_size_t index) (leveldb.table (db_ t)))
               = if stored then pred n else n).
  { rewrite (table_delete_length _ _ Hs). unfold stored, record_at, n.
    now destruct (leveldb.table_get _ _). }
  split; [exact Lu|]. split; [exact Lr|]. split.
  - rewrite getDBSize_ok by exact H2. cbn [fst]. now rewrite Lu.
  - rewrite getDBSize_ok by exact H2. cbn [fst db_ set_db leveldb.table leveldb.advance].
    now rewrite Lr.
Qed.

Lemma size_accounting_witness :
  fst (getDBSize (snd (updateSentenceInDB 0 ("b", 2%Z)
                         (snd (addSentenceToDB ("a", 1%Z) fresh_trainer)))))
  = Return 1%N.
Proof.
  assert (Hs : keys_ascending
                 (leveldb.table (db_ (snd (addSentenceToDB ("a", 1%Z) fresh_trainer)))))
    by (repeat constructor).
  assert (Hq : calls_go_through 2 (snd (addSentenceToDB ("a", 1%Z) fresh_trainer)))
    by reflexivity.
  pose proof (size_accounting 0 ("b", 2%Z) _ Hs Hq) as (_ & _ & Hu & _).
  exact Hu.
Defined.

(** X6: a scan that returns normally has written to [std::cout] one line
    feed per stored record plus the line feeds inside the stored texts; so
    when no stored text has a line feed, the number of lines printed is
    the number of records, which is what [getDBSize] returns next (modulo
    [2^64]). *)
Theorem scan_line_count (t : TrainerInterface) :
  calls_go_through 2 t ->
  snd (fst (loadSentencesFromDB t)) = Return tt ->
  let printed := stdout_bytes (fst (fst (loadSentencesFromDB t))) in
  count_LF printed
  = length (leveldb.table (db_ t))
    + list_sum (map (fun r => count_LF (before_NUL (snd r))) (leveldb.table (db_ t)))
  /\ ((forall k v, (k, v) ∈ leveldb.table (db_ t) -> count_LF (before_NUL v) = 0) ->
      count_LF printed = length (leveldb.table (db_ t))
      /\ fst (getDBSize (snd (loadSentencesFromDB t)))
         = Return (N.of_nat (count_LF printed) mod (SIZE_MAX + 1))%N).
Proof.
  intros Hq.
  destruct (quiet_next _ _ Hq) as [H1 Hq1].
  apply (quiet_next 0) in Hq1 as [H2 _].
  unfold loadSentencesFromDB, leveldb.NewIterator. rewrite H1.
  cbn [leveldb.it_entries leveldb.it_status leveldb.ok negb].
  pose proof (load_loop_LF (leveldb.table (db_ t))) as Hlf.
  destruct (load_loop (leveldb.table (db_ t))) as [out [[]|e]]; cbn [fst snd] in *;
    [|discriminate].
  intros _. specialize (Hlf eq_refl). set (printed := stdout_bytes out) in *.
  split; [exact Hlf|].
  intros Hclean.
  assert (Hsum : list_sum (map (fun r => count_LF (before_NUL (snd r)))
                             (leveldb.table (db_ t))) = 0).
  { revert Hclean. generalize (leveldb.table (db_ t)). intros l.
    induction l as [|[k v] l IH]; intros Hc; [reflexivity|].
    assert (H0 : count_LF (before_NUL v) = 0)
      by (apply (Hc k); apply list_elem_of_here).
    unfold list_sum. cbn [map fold_right snd]. rewrite H0.
    change (list_sum (map (fun r => count_LF (before_NUL (snd r))) l) = 0).
    apply IH.
    intros k' v' Hin. apply (Hc k'). now apply list_elem_of_further. }
  assert (Hn : count_LF printed = length (leveldb.table (db_ t)))
    by (rewrite Hlf, Hsum; lia).
  split; [exact Hn|].
  change (set_db t (leveldb.advance (leveldb.table (db_ t)) (db_ t))) with (tick t).
  rewrite getDBSize_ok by exact H2. cbn [fst]. now rewrite Hn.
Qed.

Lemma scan_line_count_witness :
  count_LF (stdout_bytes (fst (fst (loadSentencesFromDB
     (snd (addSentences [("a", 1%Z); (String "b" (String LF "c"), 1%Z)] fresh_trainer))))))
  = 3.
Proof.
  exact (proj1 (scan_line_count
                  (snd (addSentences [("a", 1%Z); (String "b" (String LF "c"), 1%Z)]
                          fresh_trainer))
                  eq_refl eq_refl)).
Defined.

(** X7: the readers never change the store: whatever the medium does,
    [getSentenceFromDB], [loadSentencesFromDB] and [getDBSize] leave the
    records and [current_index_] as they were, and a read repeated right
    away returns what the first one returned when the medium lets both
    through. *)
Theorem readers_leave_the_store_alone (index : N) (t : TrainerInterface) :
  (snd (getSentenceFromDB index t) = tick t
   /\ snd (loadSentencesFromDB t) = tick t
   /\ snd (getDBSize t) = tick t)
  /\ leveldb.table (db_ (tick t)) = leveldb.table (db_ t)
  /\ current_index_ (tick t) = current_index_ t
  /\ (calls_go_through 2 t ->
      fst (getSentenceFromDB index (snd (getSentenceFromDB index t)))
        = fst (getSentenceFromDB index t)
      /\ fst (getDBSize (snd (getDBSize t))) = fst (getDBSize t)
      /\ fst (fst (loadSentencesFromDB (snd (loadSentencesFromDB t))))
         = fst (fst (loadSentencesFromDB t))).
Proof.
  assert (Hg : snd (getSentenceFromDB index t) = tick t).
  { destruct (leveldb.next_event (db_ t)) as [f|] eqn:Hev.
    - now rewrite (getSentenceFromDB_fail index t f Hev).
    - now rewrite (getSentenceFromDB_ok index t Hev). }
  assert (Hl : snd (loadSentencesFromDB t) = tick t).
  { unfold loadSentencesFromDB, leveldb.NewIterator.
    destruct (leveldb.next_event (db_ t)) as [f|];
      cbn [leveldb.it_entries leveldb.it_status leveldb.ok negb];
      now destruct (load_loop _) as [out [[]|e]]. }
  assert (Hz : snd (getDBSize t) = tick t).
  { unfold getDBSize, leveldb.NewIterator.
    now destruct (leveldb.next_event (db_ t)) as [f|]. }
  split; [now repeat split|]. split; [reflexivity|]. split; [reflexivity|].
  intros Hq.
  destruct (quiet_next _ _ Hq) as [H1 Hq1].
  apply (quiet_next 0) in Hq1 as [H2 _].
  rewrite Hg, Hl, Hz. split; [|split].
  - now rewrite (getSentenceFromDB_ok _ _ H1), (getSentenceFromDB_ok _ _ H2).
  - now rewrite (getDBSize_ok _ H1), (getDBSize_ok _ H2).
  - unfold loadSentencesFromDB, leveldb.NewIterator. rewrite H1, H2.
    cbn [leveldb.it_entries leveldb.it_status leveldb.ok negb].
    change (leveldb.table (db_ (tick t))) with (leveldb.table (db_ t)).
    now destruct (load_loop _) as [out [[]|e]].
Qed.

(** ** What the store's own writes keep true *)

Section Invariants.
Import leveldb.

(** A property of the table that [Put] under an id's key with an encoded
    sentence and [Delete] keep is kept by every sequence of operations,
    whatever the medium does. *)
Lemma run_ops_invariant (P : Table -> Prop) :
  (forall i s tbl, P tbl -> P (table_put (to_string_size_t i) (encode s) tbl)) ->
  (forall i tbl, P tbl -> P (table_delete (to_string_size_t i) tbl)) ->
  forall ops t, P (table (db_ t)) -> P (table (db_ (run_ops ops t))).
Proof.
  intros Hput Hdel ops.
  induction ops as [|op ops IH]; intros t Ht; [exact Ht|].
  unfold run_ops. cbn [fold_left]. apply IH.
  destruct (next_event (db_ t)) as [f|] eqn:Hev; destruct op as [s|i s|i]; simpl.
  - now rewrite (addSentenceToDB_fail s t f Hev).
  - now rewrite (updateSentenceInDB_fail i s t f Hev).
  - now rewrite (removeSentenceFromDB_fail i t f Hev).
  - rewrite (addSentenceToDB_ok s t Hev). now apply Hput.
  - rewrite (updateSentenceInDB_ok i s t Hev). now apply Hput.
  - rewrite (removeSentenceFromDB_ok i t Hev). now apply Hdel.
Qed.

Lemma table_delete_keys (k : string) (tbl : Table) (x : string) :
  x ∈ map fst (table_delete k tbl) -> x ∈ map fst tbl.
Proof.
  rewrite !list_elem_of_fmap. intros (e & -> & He).
  exists e. split; [reflexivity|]. now apply table_delete_elem in He.
Qed.

Lemma run_ops_values_separated (ops : list StoreOp) (t : TrainerInterface) :
  values_separated (table (db_ t)) -> values_separated (table (db_ (run_ops ops t))).
Proof.
  apply (run_ops_invariant values_separated).
  - intros i s tbl Ht k v Hin.
    apply table_put_elem in Hin as [[= -> ->]|Hin]; [|now apply (Ht k)].
    apply contains_NUL_join.
  - intros i tbl Ht k v Hin. apply (Ht k). now apply table_delete_elem in Hin.
Qed.

Lemma run_ops_keys_are_ids (ops : list StoreOp) (t : TrainerInterface) :
  keys_are_ids (table (db_ t)) -> keys_are_ids (table (db_ (run_ops ops t))).
Proof.
  apply (run_ops_invariant keys_are_ids).
  - intros i s tbl Ht k Hin.
    apply table_put_keys in Hin as [->|Hin]; [now exists i|now apply Ht].
  - intros i tbl Ht k Hin. apply Ht. now apply table_delete_keys in Hin.
Qed.

Lemma run_ops_keys_ascending (ops : list StoreOp) (t : TrainerInterface) :
  keys_ascending (table (db_ t)) -> keys_ascending (table (db_ (run_ops ops t))).
Proof.
  apply (run_ops_invariant keys_ascending).
  - intros i s tbl. apply keys_ascending_put.
  - intros i tbl. apply keys_ascending_delete.
Qed.

(** [std::stoll] throws nothing but its two exceptions. *)
Lemma stoll_exceptions (s : string) (e : exception) :
  stoll s = Throw e -> e = invalid_argument "stoll" \/ e = out_of_range "stoll".
Proof.
  unfold stoll.
  destruct (match skip_space s with
            | String "-" r => (true, r)
            | String "+" r => (false, r)
            | _ => (false, skip_space s)
            end) as [neg s2].
  destruct (digits_acc s2 0%N false) as [m|]; [|intros [= <-]; now left].
  destruct (_ && _); [discriminate|]. intros [= <-]. now right.
Qed.

Lemma decode_separated (value : string) (e : exception) :
  contains_NUL value = true -> decode value = Throw e ->
  e = invalid_argument "stoll" \/ e = out_of_range "stoll".
Proof.
  intros Hn. rewrite decode_split, Hn.
  destruct (stoll (after_NUL value)) as [c|e'] eqn:Es; [discriminate|].
  intros [= <-]. now apply (stoll_exceptions _ _ Es).
Qed.

Lemma load_loop_separated (tbl : Table) (e : exception) :
  values_separated tbl -> snd (load_loop tbl) = Throw e ->
  e = invalid_argument "stoll" \/ e = out_of_range "stoll".
Proof.
  induction tbl as [|[k v] tbl IH]; intros Hv; [discriminate|].
  simpl. destruct (decode v) as [r|e'] eqn:Ed.
  - destruct (load_loop tbl) as [out o]. simpl in *. apply IH.
    intros k' v' Hin. apply (Hv k'). now apply list_elem_of_further.
  - simpl. intros [= <-]. apply (decode_separated v); [|exact Ed].
    apply (Hv k). apply list_elem_of_here.
Qed.

Lemma load_loop_app (good rest : Table) :
  Forall (fun r => exists s, decode (snd r) = Return s) good ->
  load_loop (good ++ rest)%list
  = ((map (fun r => print_record (stored_sentence (snd r))) good ++ fst (load_loop rest))%list,
     snd (load_loop rest)).
Proof.
  intros Hgood. induction Hgood as [|[k v] good' [s Hs] _ IH]; simpl.
  - now destruct (load_loop rest).
  - simpl in Hs. rewrite Hs, IH. unfold stored_sentence. now rewrite Hs.
Qed.

End Invariants.

(** X8: the store never reports its own records as corrupt: after any
    sequence of inserts, updates and removals on a store whose values all
    have the separator (an empty one, say), whatever the medium does, no
    read throws a [std::runtime_error] and no scan throws the corruption
    error. *)
Theorem own_records_are_never_corrupt (ops : list StoreOp) (t0 : TrainerInterface)
    (index : N) :
  values_separated (leveldb.table (db_ t0)) ->
  (forall what, fst (getSentenceFromDB index (run_ops ops t0)) <> Throw (runtime_error what))
  /\ snd (fst (loadSentencesFromDB (run_ops ops t0)))
     <> Throw (runtime_error "Corrupted value in LevelDB").
Proof.
  intros H0.
  pose proof (run_ops_values_separated ops t0 H0) as Hv.
  set (t := run_ops ops t0) in *. split.
  - intros what.
    destruct (leveldb.next_event (db_ t)) as [f|] eqn:Hev.
    + now rewrite (getSentenceFromDB_fail index t f Hev).
    + rewrite (getSentenceFromDB_ok index t Hev). cbn [fst].
      destruct (record_at index t) as [value|] eqn:Hr; [|discriminate].
      intros Hd. apply decode_separated in Hd as [Hd|Hd]; try discriminate Hd.
      apply (Hv (to_string_size_t index)). now apply table_get_Some_elem.
  - unfold loadSentencesFromDB, leveldb.NewIterator.
    destruct (leveldb.next_event (db_ t)) as [f|];
      cbn [leveldb.it_entries leveldb.it_status leveldb.ok negb].
    + assert (Hvt : values_separated (take (leveldb.fault_reach f) (leveldb.table (db_ t)))).
      { intros k v Hin. apply (Hv k). now apply (subseteq_take (leveldb.fault_reach f)). }
      pose proof (fun e => load_loop_separated _ e Hvt) as Hl.
      destruct (load_loop _) as [out [[]|e]]; cbn [fst snd] in *.
      * destruct f as [[] msg n]; discriminate.
      * intros E. destruct (Hl e eq_refl) as [H|H]; congruence.
    + pose proof (fun e => load_loop_separated _ e Hv) as Hl.
      destruct (load_loop _) as [out [[]|e]]; cbn [fst snd] in *; [discriminate|].
      intros E. destruct (Hl e eq_refl) as [H|H]; congruence.
Qed.

Lemma own_records_are_never_corrupt_witness :
  fst (getSentenceFromDB 0 (run_ops [Insert (a_NUL_b, 5%Z); Remove 3] fresh_trainer))
  <> Throw (runtime_error "Corrupted value in LevelDB").
Proof.
  apply (own_records_are_never_corrupt [Insert (a_NUL_b, 5%Z); Remove 3] fresh_trainer 0).
  intros k v H. inversion H.
Defined.

(** X9: a scan stops at the first record whose value has no separator: it
    has printed the lines of the records in front of it, prints nothing of
    the records behind it, and throws the corruption error. *)
Theorem scan_stops_at_corrupt_record (t : TrainerInterface)
    (good rest : leveldb.Table) (key bad : string) :
  leveldb.next_event (db_ t) = None ->
  leveldb.table (db_ t) = (good ++ (key, bad) :: rest)%list ->
  Forall (fun r => exists s, decode (snd r) = Return s) good ->
  contains_NUL bad = false ->
  fst (loadSentencesFromDB t)
  = (map (fun r => print_record (stored_sentence (snd r))) good,
     Throw (runtime_error "Corrupted value in LevelDB")).
Proof.
  intros Hev Ht Hgood Hbad.
  unfold loadSentencesFromDB, leveldb.NewIterator. rewrite Hev.
  cbn [leveldb.it_entries leveldb.it_status leveldb.ok negb].
  rewrite Ht, (load_loop_app good _ Hgood).
  cbn [load_loop]. rewrite decode_split, Hbad. cbn [fst snd].
  now rewrite app_nil_r.
Qed.

Lemma scan_stops_at_corrupt_record_witness :
  fst (loadSentencesFromDB store_with_junk)
  = ([print_record ("a", 1%Z)], Throw (runtime_error "Corrupted value in LevelDB")).
Proof.
  apply (scan_stops_at_corrupt_record store_with_junk
           [("0", encode ("a", 1%Z))] [("2", encode ("c", 1%Z))] "1" "junk").
  - reflexivity.
  - reflexivity.
  - constructor; [|constructor]. exists ("a", 1%Z). reflexivity.
  - reflexivity.
Defined.

(** X10: scans and reads see the same records: after any sequence of
    operations on a store whose keys are the decimal texts of ids in
    ascending order (an empty one, say), the keys still are, so a scan
    meets no key twice, and a record is in the table exactly when it is
    the record some id is mapped to. *)
Theorem scan_and_get_agree (ops : list StoreOp) (t0 : TrainerInterface) :
  keys_ascending (leveldb.table (db_ t0)) -> keys_are_ids (leveldb.table (db_ t0)) ->
  let t := run_ops ops t0 in
  keys_ascending (leveldb.table (db_ t))
  /\ NoDup (map fst (leveldb.table (db_ t)))
  /\ forall k v, (k, v) ∈ leveldb.table (db_ t) <->
       exists index, k = to_string_size_t index /\ record_at index t = Some v.
Proof.
  intros Ha Hi t.
  pose proof (run_ops_keys_ascending ops t0 Ha) as Ha'.
  pose proof (run_ops_keys_are_ids ops t0 Hi) as Hi'.
  fold t in Ha', Hi'.
  split; [exact Ha'|]. split.
  - unfold keys_ascending in Ha'.
    induction Ha' as [|x l Hl IH Hx]; constructor; [|exact IH].
    intros Hin. rewrite Forall_forall in Hx. specialize (Hx x Hin).
    now rewrite string_ltb_irrefl in Hx.
  - intros k v. split.
    + intros Hin.
      destruct (Hi' k) as [index ->].
      { apply list_elem_of_fmap. now exists (k, v). }
      exists index. split; [reflexivity|]. now apply table_get_elem.
    + intros (index & -> & Hr). now apply table_get_Some_elem.
Qed.

Lemma scan_and_get_agree_witness :
  NoDup (map fst (leveldb.table (db_
    (run_ops [Insert ("a", 1%Z); Update 0 ("b", 1%Z); Update 12 ("c", 1%Z)] fresh_trainer)))).
Proof.
  apply (scan_and_get_agree
           [Insert ("a", 1%Z); Update 0 ("b", 1%Z); Update 12 ("c", 1%Z)] fresh_trainer).
  - constructor.
  - intros k H. inversion H.
Defined.

(** ** More on ids *)

Section MoreIds.
Import leveldb.

(** A run of inserts writes under the ids it hands out and nowhere
    else. *)
Lemma addSentences_frame (sentences : list Sentence) :
  forall t,
  (current_index_ t + N.of_nat (length sentences) <= SIZE_MAX)%N ->
  forall j,
  (j < current_index_ t
   \/ current_index_ t + N.of_nat (successes (fst (addSentences sentences t))) <= j)%N ->
  record_at j (snd (addSentences sentences t)) = record_at j t.
Proof.
  induction sentences as [|s rest IH]; intros t Hb j Hj; [reflexivity|].
  rewrite addSentences_cons in *. cbn [fst snd] in *. simpl length in Hb.
  destruct (next_event (db_ t)) as [f|] eqn:Hev.
  - rewrite (addSentenceToDB_fail s t f Hev) in *. cbn [fst snd] in *.
    rewrite successes_Throw in Hj.
    rewrite IH; [reflexivity|simpl; lia|exact Hj].
  - rewrite (addSentenceToDB_ok s t Hev) in *. cbn [fst snd] in *.
    set (t1 := {| db_ := _; current_index_ := _ |}) in *.
    assert (Hi1 : current_index_ t1 = (current_index_ t + 1)%N)
      by (apply size_t_incr_small; lia).
    rewrite successes_Return in Hj.
    rewrite IH; [|rewrite Hi1; lia|rewrite Hi1; lia].
    apply table_get_put_ne. intros E. apply to_string_size_t_inj in E. lia.
Qed.

End MoreIds.

(** X11: a trainer constructed over a location that already holds records
    takes them over and starts counting at 0 again: its inserts replace the
    old records of the ids they use, one by one, and every id beyond the
    inserts made so far still maps to the old record. *)
Theorem reopened_store_is_overwritten_from_id_0 (disk : leveldb.DB)
    (t0 : TrainerInterface) (sentences : list Sentence) :
  TrainerInterface_new disk = Return t0 ->
  (N.of_nat (length sentences) <= SIZE_MAX)%N ->
  let os := fst (addSentences sentences t0) in
  let t := snd (addSentences sentences t0) in
  leveldb.table (db_ t0) = leveldb.table disk
  /\ current_index_ t0 = 0%N
  /\ (forall k s, sentences !! k = Some s -> os !! k = Some (Return tt) ->
        record_at (N.of_nat (successes (take k os))) t = Some (encode s))
  /\ (forall j, (N.of_nat (successes os) <= j)%N ->
        record_at j t = leveldb.table_get (to_string_size_t j) (leveldb.table disk)).
Proof.
  intros Hnew Hb os t.
  assert (H0 : leveldb.table (db_ t0) = leveldb.table disk /\ current_index_ t0 = 0%N).
  { unfold TrainerInterface_new, leveldb.Open in Hnew.
    destruct (leveldb.next_event disk); [discriminate Hnew|].
    cbn in Hnew. injection Hnew as <-. now split. }
  destruct H0 as [Ht0 Hi0].
  split; [exact Ht0|]. split; [exact Hi0|]. split.
  - destruct (addSentences_ids sentences t0) as (_ & _ & _ & Hrec); [rewrite Hi0; lia|].
    rewrite Hi0 in Hrec. exact Hrec.
  - intros j Hj. unfold t.
    rewrite addSentences_frame; [|rewrite Hi0; lia|right; rewrite Hi0; exact Hj].
    unfold record_at. now rewrite Ht0.
Qed.

Lemma reopened_store_is_overwritten_from_id_0_witness :
  TrainerInterface_new used_disk
    = Return {| db_ := used_disk; current_index_ := 0 |}
  /\ record_at 0 (snd (addSentences [("new", 1%Z)]
                         {| db_ := used_disk; current_index_ := 0 |}))
     = Some (encode ("new", 1%Z))
  /\ record_at 1 (snd (addSentences [("new", 1%Z)]
                         {| db_ := used_disk; current_index_ := 0 |}))
     = Some (encode ("older", 9%Z)).
Proof.
  assert (Hnew : TrainerInterface_new used_disk
                 = Return {| db_ := used_disk; current_index_ := 0 |}) by reflexivity.
  assert (Hb : (N.of_nat (length [("new", 1%Z)]) <= SIZE_MAX)%N)
    by (unfold SIZE_MAX; simpl; lia).
  split; [exact Hnew|].
  pose proof (reopened_store_is_overwritten_from_id_0 used_disk _ [("new", 1%Z)] Hnew Hb)
    as (_ & _ & Hrec & Hold).
  split.
  - exact (Hrec 0 ("new", 1%Z) eq_refl eq_refl).
  - apply (Hold 1%N). vm_compute. discriminate.
Defined.

(** X12: [updateSentenceInDB] never advances [current_index_], and
    [addSentenceToDB] writes at the counter whatever is stored there: a
    record upserted under the id the counter points to is replaced by the
    next insert. *)
Theorem insert_replaces_upsert_at_counter (s1 s2 : Sentence) (t : TrainerInterface) :
  calls_go_through 2 t ->
  let i := current_index_ t in
  let t1 := snd (updateSentenceInDB i s1 t) in
  let t2 := snd (addSentenceToDB s2 t1) in
  record_at i t1 = Some (encode s1)
  /\ current_index_ t1 = i
  /\ fst (addSentenceToDB s2 t1) = Return tt
  /\ record_at i t2 = Some (encode s2)
  /\ leveldb.table (db_ t2) = leveldb.table (db_ (snd (addSentenceToDB s2 (tick t)))).
Proof.
  intros Hq i t1 t2.
  destruct (quiet_next _ _ Hq) as [H1 Hq1].
  assert (H2' : leveldb.next_event (db_ (tick t)) = None)
    by now apply (quiet_next 0) in Hq1.
  assert (E1 : t1 = tick_put (to_string_size_t i) (encode s1) t)
    by (unfold t1; now rewrite updateSentenceInDB_ok).
  assert (H2 : leveldb.next_event (db_ t1) = None)
    by (rewrite E1; now apply quiet_after_put).
  unfold t2. rewrite (addSentenceToDB_ok s2 t1 H2), (addSentenceToDB_ok s2 (tick t) H2').
  cbn [fst snd]. rewrite E1.
  split; [apply record_at_put_eq|]. split; [reflexivity|]. split; [reflexivity|].
  split; [apply table_get_put_eq|].
  cbn. apply table_put_put.
Qed.

Lemma insert_replaces_upsert_at_counter_witness :
  calls_go_through 2 fresh_trainer
  /\ record_at 0 (snd (addSentenceToDB ("b", 2%Z)
                         (snd (updateSentenceInDB 0 ("a", 1%Z) fresh_trainer))))
     = Some (encode ("b", 2%Z)).
Proof.
  split; [reflexivity|].
  pose proof (insert_replaces_upsert_at_counter ("a", 1%Z) ("b", 2%Z) fresh_trainer eq_refl)
    as (_ & _ & _ & H & _).
  exact H.
Defined.

(** X13: ids are not reused: after a record is inserted and removed again,
    the next insert goes under the following id and the removed id stays
    empty. *)
Theorem removed_id_is_not_reused (s1 s2 : Sentence) (t : TrainerInterface) :
  calls_go_through 3 t -> (current_index_ t + 1 < SIZE_MAX)%N ->
  let i := current_index_ t in
  let t3 := snd (addSentenceToDB s2
                   (snd (removeSentenceFromDB i (snd (addSentenceToDB s1 t))))) in
  record_at i t3 = None
  /\ record_at (i + 1) t3 = Some (encode s2)
  /\ current_index_ t3 = (i + 2)%N.
Proof.
  intros Hq Hb i. cbv zeta.
  destruct (quiet_next _ _ Hq) as [H1 _].
  pose proof (quiet_next_put 2 (to_string_size_t i) (encode s1) t Hq) as Hq1.
  rewrite (addSentenceToDB_ok s1 t H1). cbn [snd].
  set (t1 := {| db_ := _; current_index_ := _ |}).
  assert (Q1 : calls_go_through 2 t1) by exact Hq1.
  destruct (quiet_next _ _ Q1) as [H2 Q2].
  rewrite (removeSentenceFromDB_ok i t1 H2). cbn [snd].
  set (t2 := set_db t1 _).
  assert (H3 : leveldb.next_event (db_ t2) = None)
    by now apply (quiet_next 0) in Q2.
  assert (Hi2 : current_index_ t2 = (i + 1)%N)
    by (apply size_t_incr_small; unfold i; lia).
  rewrite (addSentenceToDB_ok s2 t2 H3). cbn [snd].
  split; [|split].
  - unfold record_at. cbn [db_]. rewrite Hi2.
    change (leveldb.table _) with
      (leveldb.table_put (to_string_size_t (i + 1)) (encode s2)
         (leveldb.table_delete (to_string_size_t i)
            (leveldb.table (db_ t1)))).
    rewrite table_get_put_ne, table_get_delete_eq; [reflexivity|].
    intros E. apply to_string_size_t_inj in E. lia.
  - rewrite <- Hi2. apply table_get_put_eq.
  - cbn [current_index_]. rewrite Hi2, size_t_incr_small; lia.
Qed.

Lemma removed_id_is_not_reused_witness :
  calls_go_through 3 fresh_trainer
  /\ record_at 0 (snd (addSentenceToDB ("b", 1%Z)
       (snd (removeSentenceFromDB 0 (snd (addSentenceToDB ("a", 1%Z) fresh_trainer))))))
     = None.
Proof.
  split; [reflexivity|].
  assert (Hb : (current_index_ fresh_trainer + 1 < SIZE_MAX)%N) by reflexivity.
  pose proof (removed_id_is_not_reused ("a", 1%Z) ("b", 1%Z) fresh_trainer eq_refl Hb)
    as (H & _).
  exact H.
Defined.

(** X14: there is no overflow check on the counter: an insert at
    [current_index_ = SIZE_MAX] succeeds, is stored under that id, and
    wraps the counter to 0, so that the insert after it writes under id 0
    again. *)
Theorem counter_wraps_at_SIZE_MAX (s1 s2 : Sentence) (t : TrainerInterface) :
  current_index_ t = SIZE_MAX -> calls_go_through 2 t ->
  let t1 := snd (addSentenceToDB s1 t) in
  let t2 := snd (addSentenceToDB s2 t1) in
  fst (addSentenceToDB s1 t) = Return tt
  /\ record_at SIZE_MAX t1 = Some (encode s1)
  /\ current_index_ t1 = 0%N
  /\ record_at 0 t2 = Some (encode s2).
Proof.
  intros Hi Hq t1 t2.
  destruct (quiet_next _ _ Hq) as [H1 _].
  assert (E1 : t1 = {| db_ := db_ (tick_put (to_string_size_t SIZE_MAX) (encode s1) t);
                       current_index_ := 0 |}).
  { unfold t1. rewrite (addSentenceToDB_ok s1 t H1), Hi. reflexivity. }
  assert (H2 : leveldb.next_event (db_ t1) = None)
    by (rewrite E1; now apply (quiet_after_put _ (encode s1))).
  rewrite (addSentenceToDB_ok s1 t H1).
  split; [reflexivity|]. split; [rewrite E1; apply table_get_put_eq|].
  split; [now rewrite E1|].
  unfold t2. rewrite (addSentenceToDB_ok s2 t1 H2). cbn [snd].
  rewrite E1. apply table_get_put_eq.
Qed.

Lemma counter_wraps_at_SIZE_MAX_witness :
  current_index_ (snd (addSentenceToDB ("a", 1%Z) last_id_trainer)) = 0%N.
Proof.
  pose proof (counter_wraps_at_SIZE_MAX ("a", 1%Z) ("b", 1%Z) last_id_trainer
                eq_refl eq_refl) as (_ & _ & H & _).
  exact H.
Defined.

(** ** More on the encoding *)

(** X15: the encoding tells sentences apart: two sentences with NUL-free
    texts (and [int64_t] counts) that are stored as the same bytes are the
    same sentence. *)
Theorem encode_is_injective (s1 s2 : Sentence) :
  plain s1 -> plain s2 -> encode s1 = encode s2 -> s1 = s2.
Proof.
  intros H1 H2 E.
  pose proof (decode_encode_plain s1 H1) as D1.
  rewrite E, (decode_encode_plain s2 H2) in D1. now injection D1.
Qed.

Lemma encode_is_injective_witness :
  plain ("a b", 12%Z) /\ ("a b", 12%Z) = ("a" ++ " b", (5 + 7)%Z).
Proof.
  assert (Hp : plain ("a b", 12%Z))
    by (split; [reflexivity|unfold is_int64, INT64_MIN, INT64_MAX; simpl; lia]).
  split; [exact Hp|].
  exact (encode_is_injective ("a b", 12%Z) ("a" ++ " b", (5 + 7)%Z) Hp Hp eq_refl).
Defined.

Section Trailing.

Lemma digits_acc_pos_app (d : uint) (acc : positive) (r : string) :
  digits_acc (NilEmpty.string_of_uint d ++ r) (Npos acc) true
  = digits_acc r (Npos (Pos.of_uint_acc d acc)) true.
Proof.
  revert acc.
  induction d as [|d IH|d IH|d IH|d IH|d IH|d IH|d IH|d IH|d IH|d IH];
    intros acc; [reflexivity|..];
    cbn [NilEmpty.string_of_uint Pos.of_uint_acc]; rewrite append_String;
    cbn [digits_acc];
    match goal with
    | |- context [digit_of ?c] =>
        let v := eval vm_compute in (digit_of c) in
        change (digit_of c) with v; cbv iota
    end;
    rewrite <- IH; f_equal; lia.
Qed.

Lemma digits_acc_uint_app (d : uint) (seen : bool) (r : string) :
  d <> Nil \/ seen = true ->
  digits_acc (NilEmpty.string_of_uint d ++ r) 0%N seen
  = digits_acc r (Pos.of_uint d) true.
Proof.
  revert seen.
  induction d as [|d IH|d IH|d IH|d IH|d IH|d IH|d IH|d IH|d IH|d IH];
    intros seen Hs.
  - destruct Hs as [Hs|Hs]; [now destruct Hs|now subst seen].
  - cbn [NilEmpty.string_of_uint Pos.of_uint]. rewrite append_String.
    cbn [digits_acc].
    change (digit_of "0") with (Some 0%N); cbv iota.
    change (10 * 0 + 0)%N with 0%N. apply IH. now right.
  - apply (digits_acc_pos_app d 1).
  - apply (digits_acc_pos_app d 2).
  - apply (digits_acc_pos_app d 3).
  - apply (digits_acc_pos_app d 4).
  - apply (digits_acc_pos_app d 5).
  - apply (digits_acc_pos_app d 6).
  - apply (digits_acc_pos_app d 7).
  - apply (digits_acc_pos_app d 8).
  - apply (digits_acc_pos_app d 9).
Qed.

Lemma digits_acc_stop (x : ascii) (tail : string) (acc : N) :
  isdigit x = false -> digits_acc (String x tail) acc true = Some acc.
Proof.
  unfold isdigit. simpl. now destruct (digit_of x).
Qed.

(** [std::stoll] stops reading at the first byte that is no digit. *)
Lemma stoll_to_string_app (z : Z) (x : ascii) (tail : string) :
  is_int64 z -> isdigit x = false ->
  stoll (to_string_int64 z ++ String x tail) = Return z.
Proof.
  intros [Hlo Hhi] Hx. unfold to_string_int64.
  assert (Hpos : forall d, d <> Nil ->
            stoll (NilEmpty.string_of_uint d ++ String x tail)
            = if (Z.of_N (Pos.of_uint d) <=? INT64_MAX)%Z
              then Return (Z.of_N (Pos.of_uint d)) else Throw (out_of_range "stoll")).
  { intros d Hd. unfold stoll.
    destruct (string_of_uint_head d Hd) as (c & r & E & Hsp & Hm & Hp).
    assert (E' : NilEmpty.string_of_uint d ++ String x tail
                 = String c (r ++ String x tail)) by now rewrite E.
    assert (Hskip : skip_space (NilEmpty.string_of_uint d ++ String x tail)
                    = NilEmpty.string_of_uint d ++ String x tail).
    { rewrite E'. simpl. now rewrite Hsp. }
    rewrite Hskip.
    assert (Hsign : match NilEmpty.string_of_uint d ++ String x tail with
                    | String "-" r => (true, r)
                    | String "+" r => (false, r)
                    | _ => (false, NilEmpty.string_of_uint d ++ String x tail)
                    end = (false, NilEmpty.string_of_uint d ++ String x tail)).
    { rewrite E'.
      destruct c as [[] [] [] [] [] [] [] []]; try reflexivity; congruence. }
    rewrite Hsign, digits_acc_uint_app, digits_acc_stop by (assumption || now left).
    assert ((INT64_MIN <=? Z.of_N (Pos.of_uint d))%Z = true) as ->
      by (apply Z.leb_le; unfold INT64_MIN; lia).
    reflexivity. }
  assert (Hneg : forall d, d <> Nil ->
            stoll (String "-" (NilEmpty.string_of_uint d ++ String x tail))
            = if (INT64_MIN <=? - Z.of_N (Pos.of_uint d))%Z
              then Return (- Z.of_N (Pos.of_uint d))%Z
              else Throw (out_of_range "stoll")).
  { intros d Hd. unfold stoll.
    change (skip_space (String "-" ?s)) with (String "-" s).
    cbv iota beta.
    rewrite digits_acc_uint_app, digits_acc_stop by (assumption || now left).
    assert ((- Z.of_N (Pos.of_uint d) <=? INT64_MAX)%Z = true) as ->
      by (apply Z.leb_le; unfold INT64_MAX; lia).
    now rewrite andb_true_r. }
  destruct z as [|p|p]; [exact (Hpos (D0 Nil) ltac:(discriminate))|..];
    simpl Z.to_int; cbn [NilZero.string_of_int].
  - pose proof (DecimalPos.Unsigned.to_uint_nonnil p) as Hn.
    assert (NilZero.string_of_uint (Pos.to_uint p)
            = NilEmpty.string_of_uint (Pos.to_uint p)) as ->
      by (destruct (Pos.to_uint p); [congruence|reflexivity..]).
    rewrite Hpos, DecimalPos.Unsigned.of_to by assumption.
    apply Z.leb_le in Hhi. change (Z.of_N (N.pos p)) with (Z.pos p). now rewrite Hhi.
  - pose proof (DecimalPos.Unsigned.to_uint_nonnil p) as Hn.
    assert (NilZero.string_of_uint (Pos.to_uint p)
            = NilEmpty.string_of_uint (Pos.to_uint p)) as ->
      by (destruct (Pos.to_uint p); [congruence|reflexivity..]).
    rewrite append_String, Hneg, DecimalPos.Unsigned.of_to by assumption.
    apply Z.leb_le in Hlo. change (- Z.of_N (N.pos p))%Z with (Z.neg p).
    now rewrite Hlo.
Qed.

End Trailing.

(** X16: the readers do not check what follows the count: a stored value
    that is an encoded sentence (NUL-free text) followed by bytes that do
    not start with a digit still decodes to that sentence; the extra bytes
    go unnoticed. *)
Theorem decode_ignores_trailing_bytes (s : Sentence) (x : ascii) (tail : string) :
  plain s -> isdigit x = false ->
  decode (encode s ++ String x tail) = Return s.
Proof.
  destruct s as [text count]. intros [Hn Hc] Hx. simpl in Hn, Hc.
  assert (E : encode (text, count) ++ String x tail
              = join_NUL text (to_string_int64 count ++ String x tail)).
  { unfold encode, join_NUL. cbn [fst snd].
    now rewrite string_app_assoc, append_String. }
  rewrite E, decode_split, contains_NUL_join, after_NUL_join, before_NUL_join, Hn.
  now rewrite stoll_to_string_app, before_NUL_id.
Qed.

Lemma decode_ignores_trailing_bytes_witness :
  decode (encode ("a b", 12%Z) ++ " and more") = Return ("a b", 12%Z).
Proof.
  apply (decode_ignores_trailing_bytes ("a b", 12%Z) " " "and more").
  - split; [reflexivity|unfold is_int64, INT64_MIN, INT64_MAX; simpl; lia].
  - reflexivity.
Defined.

(** ** More on [Sorted] *)

(** X17: on totally ordered keys and values the ranking does not depend on
    the order of the input: [Sorted] returns the same list for every
    arrangement of the same pairs, and ranking a ranked list changes
    nothing. *)
Theorem Sorted_is_order_independent {K V : Type}
    (ltK : K -> K -> bool) (gtV eqV : V -> V -> bool) (m1 m2 : list (K * V)) :
  (forall a, ltK a a = false) ->
  (forall a b c, ltK a b = true -> ltK b c = true -> ltK a c = true) ->
  total ltK ->
  (forall a, gtV a a = false) ->
  (forall a b c, gtV a b = true -> gtV b c = true -> gtV a c = true) ->
  total gtV ->
  (forall a b, eqV a b = true <-> a = b) ->
  m1 ≡ₚ m2 ->
  Sorted ltK gtV eqV m1 = Sorted ltK gtV eqV m2
  /\ Sorted ltK gtV eqV (Sorted ltK gtV eqV m1) = Sorted ltK gtV eqV m1.
Proof.
  intros Hki Hkt Hkl Hvi Hvt Hvl Heq Hperm.
  pose proof (comp_irrefl ltK gtV eqV Hki Hvi) as Hci.
  pose proof (comp_trans ltK gtV eqV Hkt Hvt Heq) as Hct.
  pose proof (comp_total ltK gtV eqV Hkl Hvl Heq) as Hcl.
  split.
  - apply (std_sort_unique (comp ltK gtV eqV) Hci Hct Hcl m2).
    + apply (std_sort_ranked _ Hci Hct Hcl).
    + unfold Sorted. now rewrite std_sort_perm.
  - symmetry. apply (std_sort_unique (comp ltK gtV eqV) Hci Hct Hcl).
    + apply (std_sort_ranked _ Hci Hct Hcl).
    + reflexivity.
Qed.

Lemma Sorted_is_order_independent_witness :
  Sorted N.ltb Z.gtb Z.eqb [(98%N, 2%Z); (99%N, 5%Z); (97%N, 2%Z)]
  = Sorted N.ltb Z.gtb Z.eqb [(99%N, 5%Z); (97%N, 2%Z); (98%N, 2%Z)].
Proof.
  apply (Sorted_is_order_independent N.ltb Z.gtb Z.eqb
           [(98%N, 2%Z); (99%N, 5%Z); (97%N, 2%Z)]
           [(99%N, 5%Z); (97%N, 2%Z); (98%N, 2%Z)]).
  - exact N_ltb_irrefl.
  - exact N_ltb_trans.
  - exact N_ltb_total.
  - exact Z_gtb_irrefl.
  - exact Z_gtb_trans.
  - exact Z_gtb_total.
  - exact Z.eqb_eq.
  - apply (Permutation_cons_append [(99%N, 5%Z); (97%N, 2%Z)] (98%N, 2%Z)).
Defined.

(** X18: [Sorted] over a hash map returns every entry of the map exactly
    once (no key twice), ranked as the vector overload ranks, and, keys
    and values being totally ordered, returns the same list whatever
    order the map is iterated in. *)
Theorem Sorted_map_ranks_the_entries {K V : Type} `{Countable K}
    (ltK : K -> K -> bool) (gtV eqV : V -> V -> bool) (m : gmap K V) :
  (forall a, ltK a a = false) ->
  (forall a b c, ltK a b = true -> ltK b c = true -> ltK a c = true) ->
  total ltK ->
  (forall a, gtV a a = false) ->
  (forall a b c, gtV a b = true -> gtV b c = true -> gtV a c = true) ->
  total gtV ->
  (forall a b, eqV a b = true <-> a = b) ->
  (forall k v, (k, v) ∈ Sorted_map ltK gtV eqV m <-> m !! k = Some v)
  /\ NoDup (map fst (Sorted_map ltK gtV eqV m))
  /\ length (Sorted_map ltK gtV eqV m) = size m
  /\ ranked (comp ltK gtV eqV) (Sorted_map ltK gtV eqV m)
  /\ (forall entries, entries ≡ₚ map_to_list m ->
        Sorted ltK gtV eqV entries = Sorted_map ltK gtV eqV m).
Proof.
  intros Hki Hkt Hkl Hvi Hvt Hvl Heq.
  pose proof (comp_irrefl ltK gtV eqV Hki Hvi) as Hci.
  pose proof (comp_trans ltK gtV eqV Hkt Hvt Heq) as Hct.
  pose proof (comp_total ltK gtV eqV Hkl Hvl Heq) as Hcl.
  assert (Hperm : Sorted_map ltK gtV eqV m ≡ₚ map_to_list m)
    by apply std_sort_perm.
  split; [|split; [|split; [|split]]].
  - intros k v. rewrite Hperm. apply elem_of_map_to_list.
  - change (map fst (Sorted_map ltK gtV eqV m))
      with (fst <$> Sorted_map ltK gtV eqV m).
    rewrite Hperm. apply NoDup_fst_map_to_list.
  - rewrite Hperm. apply length_map_to_list.
  - apply (std_sort_ranked _ Hci Hct Hcl).
  - intros entries He.
    apply (std_sort_unique (comp ltK gtV eqV) Hci Hct Hcl (map_to_list m)).
    + apply (std_sort_ranked _ Hci Hct Hcl).
    + unfold Sorted. now rewrite std_sort_perm.
Qed.

Lemma Sorted_map_ranks_the_entries_witness :
  length (Sorted_map N.ltb Z.gtb Z.eqb
            (<[97%N := 2%Z]> (<[99%N := 5%Z]> (<[98%N := 2%Z]> ∅))))
  = size (<[97%N := 2%Z]> (<[99%N := 5%Z]> (<[98%N := 2%Z]> (∅ : gmap N Z)))).
Proof.
  apply (Sorted_map_ranks_the_entries N.ltb Z.gtb Z.eqb
           (<[97%N := 2%Z]> (<[99%N := 5%Z]> (<[98%N := 2%Z]> ∅)))).
  - exact N_ltb_irrefl.
  - exact N_ltb_trans.
  - exact N_ltb_total.
  - exact Z_gtb_irrefl.
  - exact Z_gtb_trans.
  - exact Z_gtb_total.
  - exact Z.eqb_eq.
Defined.

Example Sorted_map_ex :
  Sorted_map N.ltb Z.gtb Z.eqb
    (<[97%N := 2%Z]> (<[99%N := 5%Z]> (<[98%N := 2%Z]> ∅)))
  = [(99%N, 5%Z); (97%N, 2%Z); (98%N, 2%Z)].
Proof. vm_compute. reflexivity. Qed.
